(** * Shallow embedding of the [property] derive macro (rust-property)

    The three source files are [src/generate.rs] (type classification and the
    getter kind), [src/parse.rs] (the configuration records, the attribute
    parser and the crate-default lifecycle) and [src/lib.rs] (the method and
    trait synthesizer).  Token streams are replaced by small abstract syntax:
    a generated method is a record describing its visibility, name and
    signature, and a panic of the procedural macro is the [None] (or [Panic])
    outcome of the corresponding function. *)

From Stdlib Require Import String Ascii List Bool Arith NArith Lia
  Sorting.Permutation Sorting.Sorted.
Import ListNotations.
Open Scope string_scope.
Set Warnings "-register-all".

(* ------------------------------------------------------------------------- *)
(** ** syn types, as far as [FieldType::from_type] inspects them *)

Inductive Ty : Type :=
| TPath (segs : list PathSegment)          (* syn::Type::Path *)
| TArray (elem : Ty) (len : nat)           (* syn::Type::Array *)
| TOther (descr : string)                  (* every other syn::Type variant *)
with PathSegment : Type :=
| Seg (ident : string) (arguments : PathArguments)
with PathArguments : Type :=
| PANone                                   (* syn::PathArguments::None *)
| PAAngle (args : list GenericArgument)    (* syn::PathArguments::AngleBracketed *)
| PAParen                                  (* syn::PathArguments::Parenthesized *)
with GenericArgument : Type :=
| GAType (t : Ty)                          (* syn::GenericArgument::Type *)
| GALifetime (l : string)
| GAConst (n : nat).

Definition seg_ident (s : PathSegment) : string :=
  match s with Seg i _ => i end.

Definition seg_arguments (s : PathSegment) : PathArguments :=
  match s with Seg _ a => a end.

(** The classified shape ([generate.rs], [enum FieldType]).  [Option_] keeps
    the whole argument list, as [quote!(#args)] does. *)
Inductive FieldType : Type :=
| Number
| Boolean
| Character
| String_
| Array (elem : Ty) (len : nat)
| Vector (inner : Ty)
| Option_ (args : list GenericArgument)
| Unhandled.

(** [FieldType::from_type]; [None] is a panic of the macro
    ([unreachable!()] or the out-of-bounds index [inner.args[0]]). *)
Definition from_type (ty : Ty) : option FieldType :=
  match ty with
  | TPath segs =>
      match segs with
      | [s0] =>
          match seg_ident s0 with
          | "f32" | "f64" => Some Number
          | "i8" | "i16" | "i32" | "i64" | "i128" | "isize" => Some Number
          | "u8" | "u16" | "u32" | "u64" | "u128" | "usize" => Some Number
          | "bool" => Some Boolean
          | "char" => Some Character
          | "String" => Some String_
          | "Vec" =>
              match seg_arguments s0 with
              | PAAngle args =>
                  match args with
                  | GAType inner :: _ => Some (Vector inner)
                  | _ :: _ => None          (* unreachable!() *)
                  | [] => None              (* inner.args[0] out of bounds *)
                  end
              | _ => None                   (* unreachable!() *)
              end
          | "Option" =>
              match seg_arguments s0 with
              | PAAngle args => Some (Option_ args)
              | _ => None                   (* unreachable!() *)
              end
          | _ => Some Unhandled
          end
      | _ => Some Unhandled
      end
  | TArray elem len => Some (Array elem len)
  | TOther _ => Some Unhandled
  end.

(** The getter kind ([generate.rs], [enum GetType]); [Slice] carries the
    element type of the slice [&[elem]]. *)
Inductive GetType : Type :=
| GRef
| GCopy
| GClone
| GString
| GSlice (elem : Ty)
| GOption (args : list GenericArgument).

(** [GetType::from_field_type] *)
Definition get_type_from_field_type (ft : FieldType) : GetType :=
  match ft with
  | Number | Boolean | Character => GCopy
  | String_ => GString
  | Array elem _ => GSlice elem
  | Vector inner => GSlice inner
  | Option_ inner => GOption inner
  | Unhandled => GRef
  end.

(* ------------------------------------------------------------------------- *)
(** ** Configuration records ([parse.rs]) *)

Inductive PropertyType := PCrate | PContainer | PField.

Definition property_type_eqb (a b : PropertyType) : bool :=
  match a, b with
  | PCrate, PCrate | PContainer, PContainer | PField, PField => true
  | _, _ => false
  end.

Inductive GetTypeConf := GAuto | GTRef | GTCopy | GTClone.
Inductive SetTypeConf := SRef | SOwn | SNone | SReplace.
Inductive VisibilityConf := Disable | Public | Crate | Private.
Inductive SortTypeConf := Ascending | Descending.

Inductive MethodNameConf :=
| Name (name : string)
| Format (prefix suffix : string).

Record GetFieldConf := { get_vis : VisibilityConf; get_name : MethodNameConf;
                         get_typ : GetTypeConf }.
Record SetFieldConf := { set_vis : VisibilityConf; set_name : MethodNameConf;
                         set_typ : SetTypeConf; strip_option : bool }.
Record MutFieldConf := { mut_vis : VisibilityConf; mut_name : MethodNameConf }.
Record OrdFieldConf := { number : option N; sort_type : SortTypeConf }.
Record FieldConf := { get : GetFieldConf; set : SetFieldConf;
                      mut_ : MutFieldConf; ord : OrdFieldConf; skip : bool }.

(** [impl Default for FieldConf] *)
Definition FieldConf_default : FieldConf :=
  {| get := {| get_vis := Crate; get_name := Format "" ""; get_typ := GAuto |};
     set := {| set_vis := Crate; set_name := Format "set_" "";
               set_typ := SRef; strip_option := false |};
     mut_ := {| mut_vis := Crate; mut_name := Format "mut_" "" |};
     ord := {| number := None; sort_type := Ascending |};
     skip := false |}.

(** [SortTypeConf::is_ascending] *)
Definition is_ascending (s : SortTypeConf) : bool :=
  match s with Ascending => true | Descending => false end.

(** [VisibilityConf::to_ts]: the visibility tokens, [None] for a disabled
    method. *)
Definition to_ts (v : VisibilityConf) : option string :=
  match v with
  | Disable => None
  | Public => Some "pub"
  | Crate => Some "pub(crate)"
  | Private => Some ""
  end.

(** The identifier check of [syn::Ident::new] (through [proc_macro2]): the
    text must be a plain identifier, i.e. non-empty, starting with a letter
    or [_] and continuing with letters, digits or [_]; anything else (an
    empty name, a leading digit, punctuation, the [r#] prefix of a raw
    identifier) makes it panic.  Identifier texts are taken to be ASCII. *)
Definition is_ident_start (c : ascii) : bool :=
  let n := nat_of_ascii c in
  (((65 <=? n) && (n <=? 90)) || ((97 <=? n) && (n <=? 122)) || (n =? 95))%nat.

Definition is_ident_continue (c : ascii) : bool :=
  let n := nat_of_ascii c in
  (is_ident_start c || ((48 <=? n) && (n <=? 57)))%nat.

Fixpoint string_forallb (p : ascii -> bool) (s : string) : bool :=
  match s with
  | EmptyString => true
  | String c rest => p c && string_forallb p rest
  end.

Definition valid_ident (s : string) : bool :=
  match s with
  | EmptyString => false
  | String c rest => is_ident_start c && string_forallb is_ident_continue rest
  end.

(** [MethodNameConf::complete]: [None] is the panic of [syn::Ident::new]
    on a completed name that is not an identifier. *)
Definition complete (n : MethodNameConf) (field_name : string) : option string :=
  let method_name :=
    match n with
    | Name name => name
    | Format prefix suffix => prefix ++ field_name ++ suffix
    end in
  if valid_ident method_name then Some method_name else None.

(* ------------------------------------------------------------------------- *)
(** ** Attributes and the parse result ([syn::Meta], [ParseResult]) *)

(** A [syn::Path] is its list of segment identifiers. *)
Definition Path := list string.

(** [Path::get_ident] *)
Definition get_ident (p : Path) : option string :=
  match p with [i] => Some i | _ => None end.

(** [Path::is_ident] *)
Definition is_ident (p : Path) (s : string) : bool :=
  match p with [i] => String.eqb i s | _ => false end.

Inductive Lit := LStr (s : string) | LInt (n : nat) | LBool (b : bool).

Inductive Meta : Type :=
| MPath (p : Path)
| MList (p : Path) (nested : list NestedMeta)
| MNameValue (p : Path) (lit : Lit)
with NestedMeta : Type :=
| NMeta (m : Meta)
| NLit (l : Lit).

(** [syn::parse::Result]; the error carries the message. *)
Inductive result (A : Type) := Ok (a : A) | Err (msg : string).
Arguments Ok {A} a.
Arguments Err {A} msg.

Definition bind {A B} (r : result A) (k : A -> result B) : result B :=
  match r with Ok a => k a | Err m => Err m end.

Notation "x <- r ;; k" := (bind r (fun x => k))
  (at level 61, r at next level, right associativity).

(* ------------------------------------------------------------------------- *)
(** ** Option-list constants of [parse.rs] *)

Definition SKIP := "skip".
Definition VISIBILITY_OPTIONS := ["disable"; "public"; "crate"; "private"].
Definition STRIP_OPTION := ["strip_option"].
Definition SORT_TYPE_OPTIONS := ["asc"; "desc"].
Definition NAME_OPTION : string * option (list string) := ("name", None).
Definition PREFIX_OPTION : string * option (list string) := ("prefix", None).
Definition SUFFIX_OPTION : string * option (list string) := ("suffix", None).
Definition GET_TYPE_OPTIONS : string * option (list string) :=
  ("type", Some ["auto"; "ref"; "copy"; "clone"]).
Definition SET_TYPE_OPTIONS : string * option (list string) :=
  ("type", Some ["ref"; "own"; "none"; "replace"]).

(** Lookup in the [HashMap<&str, String>] of matched name-value parameters. *)
Fixpoint lookup (k : string) (m : list (string * string)) : option string :=
  match m with
  | [] => None
  | (k', v) :: m' => if String.eqb k k' then Some v else lookup k m'
  end.

(** [HashMap::insert] (the returned old value is not used by the callers). *)
Definition map_insert (k : string) (v : string) (m : list (string * string)) :=
  (k, v) :: m.

(** [check_path_params]: [path_params] is the [HashSet] of word parameters in
    iteration order, [options] the word groups. *)
Fixpoint find_group (p : Path) (i : nat) (options : list (list string))
  : option (nat * string) :=
  match options with
  | [] => None
  | group :: rest =>
      match find (is_ident p) group with
      | Some opt => Some (i, opt)
      | None => find_group p (S i) rest
      end
  end.

Fixpoint replace_nth {A} (l : list A) (i : nat) (x : A) : list A :=
  match l, i with
  | [], _ => []
  | _ :: l', 0 => x :: l'
  | y :: l', S i' => y :: replace_nth l' i' x
  end.

Fixpoint check_path_params_loop (ps : list Path) (options : list (list string))
    (res : list (option string)) : result (list (option string)) :=
  match ps with
  | [] => Ok res
  | p :: ps' =>
      match find_group p 0 options with
      | None => Err "this attribute was unknown"
      | Some (i, opt) =>
          match nth i res None with
          | Some _ => Err "this kind of attribute has been set twice"
          | None => check_path_params_loop ps' options (replace_nth res i (Some opt))
          end
      end
  end.

Definition check_path_params (ps : list Path) (options : list (list string))
  : result (list (option string)) :=
  check_path_params_loop ps options (repeat None (length options)).

(** [check_namevalue_params] *)
Fixpoint find_namevalue (n : Path) (value : string)
    (options : list (string * option (list string))) : option string :=
  match options with
  | [] => None
  | (k, group_opt) :: rest =>
      if is_ident n k then
        match group_opt with
        | Some group =>
            if existsb (String.eqb value) group then Some k
            else find_namevalue n value rest
        | None => Some k
        end
      else find_namevalue n value rest
  end.

Fixpoint check_namevalue_params (params : list (Path * string))
    (options : list (string * option (list string)))
  : result (list (string * string)) :=
  match params with
  | [] => Ok []
  | (n, value) :: params' =>
      match find_namevalue n value options with
      | None => Err "this attribute was unknown"
      | Some k =>
          r <- check_namevalue_params params' options ;;
          Ok (map_insert k value r)
      end
  end.

(** [str::parse::<usize>] on the digits after the [_] of an ordinal word
    (identifiers contain no sign, so only digits can occur). *)
Fixpoint parse_digits (s : string) (acc : N) : option N :=
  match s with
  | EmptyString => Some acc
  | String c s' =>
      let d := N.of_nat (nat_of_ascii c) in
      if andb (48 <=? d)%N (d <=? 57)%N
      then parse_digits s' (acc * 10 + (d - 48))%N
      else None
  end.

Definition parse_usize (s : string) : option N :=
  match s with
  | EmptyString => None
  | _ => match parse_digits s 0%N with
         | Some n => if (n <? 2 ^ 64)%N then Some n else None
         | None => None
         end
  end.

(** [OrdFieldConf::parse_from_path_params] *)
Fixpoint ord_params_loop (ps : list Path) (options : list string)
    (prop_type : PropertyType) (sort_type : option string) (number_opt : option N)
  : result (option string * option N) :=
  match ps with
  | [] => Ok (sort_type, number_opt)
  | p :: ps' =>
      match get_ident p with
      | None => Err "this attribute should be a single ident"
      | Some s =>
          if existsb (String.eqb s) options then
            match sort_type with
            | Some _ => Err "this kind of attribute has been set twice"
            | None =>
                ord_params_loop ps' options prop_type
                  (find (String.eqb s) options) number_opt
            end
          else
            match s with
            | String "_" digits =>
                if negb (property_type_eqb prop_type PField) then
                  Err "the serial number could not be set as a crate or container attribute"
                else
                  match parse_usize digits with
                  | Some n =>
                      match number_opt with
                      | Some _ => Err "the serial number has been set twice"
                      | None => ord_params_loop ps' options prop_type sort_type (Some n)
                      end
                  | None =>
                      Err "the serial number should be an unsigned number with a `_` prefix"
                  end
            | _ => Err "this attribute was unknown"
            end
      end
  end.

Definition ord_parse_from_path_params (ps : list Path) (options : list string)
    (prop_type : PropertyType) : result (option string * option N) :=
  r <- ord_params_loop ps options prop_type None None ;;
  let '(sort_type, number_opt) := r in
  if andb (property_type_eqb prop_type PField)
          (match number_opt with None => true | Some _ => false end)
  then Err "no serial number was set"
  else Ok (sort_type, number_opt).

(** The [parse_from_input] functions of [VisibilityConf], [GetTypeConf],
    [SetTypeConf], [SortTypeConf] and [MethodNameConf]. *)
Definition vis_parse_from_input (input : option string)
  : result (option VisibilityConf) :=
  match input with
  | None => Ok None
  | Some "disable" => Ok (Some Disable)
  | Some "public" => Ok (Some Public)
  | Some "crate" => Ok (Some Crate)
  | Some "private" => Ok (Some Private)
  | Some _ => Err "unreachable result"
  end.

Definition get_type_parse_from_input (nv : list (string * string))
  : result (option GetTypeConf) :=
  match lookup "type" nv with
  | None => Ok None
  | Some "auto" => Ok (Some GAuto)
  | Some "ref" => Ok (Some GTRef)
  | Some "copy" => Ok (Some GTCopy)
  | Some "clone" => Ok (Some GTClone)
  | Some _ => Err "unreachable result"
  end.

Definition set_type_parse_from_input (nv : list (string * string))
  : result (option SetTypeConf) :=
  match lookup "type" nv with
  | None => Ok None
  | Some "ref" => Ok (Some SRef)
  | Some "own" => Ok (Some SOwn)
  | Some "none" => Ok (Some SNone)
  | Some "replace" => Ok (Some SReplace)
  | Some _ => Err "unreachable result"
  end.

Definition sort_type_parse_from_input (input : option string)
  : result (option SortTypeConf) :=
  match input with
  | None => Ok None
  | Some "asc" => Ok (Some Ascending)
  | Some "desc" => Ok (Some Descending)
  | Some _ => Err "unreachable result"
  end.

Definition name_parse_from_input (nv : list (string * string))
  : result (option MethodNameConf) :=
  match lookup "name" nv, lookup "prefix" nv, lookup "suffix" nv with
  | Some name, None, None => Ok (Some (Name name))
  | Some _, _, _ => Err "do not set prefix or suffix if name was set"
  | None, Some prefix, Some suffix => Ok (Some (Format prefix suffix))
  | None, Some prefix, None => Ok (Some (Format prefix ""))
  | None, None, Some suffix => Ok (Some (Format "" suffix))
  | None, None, None => Ok None
  end.

(* ------------------------------------------------------------------------- *)
(** ** [FieldConf::apply_attrs] and [parse_attrs] *)

(** Record updates used by [apply_attrs] ([self.get.vis = choice] etc.). *)
Definition set_get (c : FieldConf) (g : GetFieldConf) : FieldConf :=
  {| get := g; set := set c; mut_ := mut_ c; ord := ord c; skip := skip c |}.
Definition set_set (c : FieldConf) (s : SetFieldConf) : FieldConf :=
  {| get := get c; set := s; mut_ := mut_ c; ord := ord c; skip := skip c |}.
Definition set_mut (c : FieldConf) (m : MutFieldConf) : FieldConf :=
  {| get := get c; set := set c; mut_ := m; ord := ord c; skip := skip c |}.
Definition set_ord (c : FieldConf) (o : OrdFieldConf) : FieldConf :=
  {| get := get c; set := set c; mut_ := mut_ c; ord := o; skip := skip c |}.
Definition set_skip (c : FieldConf) (b : bool) : FieldConf :=
  {| get := get c; set := set c; mut_ := mut_ c; ord := ord c; skip := b |}.

Fixpoint path_eqb (p q : Path) : bool :=
  match p, q with
  | [], [] => true
  | a :: p', b :: q' => String.eqb a b && path_eqb p' q'
  | _, _ => false
  end.

(** The loop over [list.nested] that fills [path_params] (a [HashSet]) and
    [namevalue_params] (a [HashMap]), both kept in insertion order. *)
Fixpoint collect_params (nested : list NestedMeta) (pp : list Path)
    (nv : list (Path * string)) : result (list Path * list (Path * string)) :=
  match nested with
  | [] => Ok (pp, nv)
  | NMeta (MPath p) :: rest =>
      if existsb (path_eqb p) pp then Err "this attribute has been set twice"
      else collect_params rest (pp ++ [p]) nv
  | NMeta (MNameValue p (LStr content)) :: rest =>
      if existsb (fun kv => path_eqb p (fst kv)) nv
      then Err "this attribute has been set twice"
      else collect_params rest pp (nv ++ [(p, content)])
  | NMeta (MNameValue _ _) :: _ => Err "this literal should be a string literal"
  | NMeta (MList _ _) :: _ =>
      Err "this attribute should be a path or a name-value pair"
  | NLit _ :: _ => Err "this attribute should not be a literal"
  end.

Definition apply_attrs (self : FieldConf) (meta : Meta) (prop_type : PropertyType)
  : result FieldConf :=
  match meta with
  | MPath path =>
      if is_ident path SKIP then Ok (set_skip self true)
      else Err "this attribute was unknown"
  | MList lpath nested =>
      params <- collect_params nested [] [] ;;
      let '(path_params, namevalue_params) := params in
      if andb (Nat.eqb (length path_params) 0) (Nat.eqb (length namevalue_params) 0)
      then Err "this attribute should not be empty"
      else
      match get_ident lpath with
      | None => Err "this attribute should be a single ident"
      | Some attr =>
      if String.eqb attr "get" then
          paths <- check_path_params path_params [VISIBILITY_OPTIONS] ;;
          namevalues <- check_namevalue_params namevalue_params
                          [NAME_OPTION; PREFIX_OPTION; SUFFIX_OPTION; GET_TYPE_OPTIONS] ;;
          vis <- vis_parse_from_input (nth 0 paths None) ;;
          let g := get self in
          let g := match vis with
                   | Some v => {| get_vis := v; get_name := get_name g; get_typ := get_typ g |}
                   | None => g end in
          name <- name_parse_from_input namevalues ;;
          let g := match name with
                   | Some n => {| get_vis := get_vis g; get_name := n; get_typ := get_typ g |}
                   | None => g end in
          typ <- get_type_parse_from_input namevalues ;;
          let g := match typ with
                   | Some t => {| get_vis := get_vis g; get_name := get_name g; get_typ := t |}
                   | None => g end in
          Ok (set_get self g)
      else if String.eqb attr "set" then
          paths <- check_path_params path_params [VISIBILITY_OPTIONS; STRIP_OPTION] ;;
          namevalues <- check_namevalue_params namevalue_params
                          [NAME_OPTION; PREFIX_OPTION; SUFFIX_OPTION; SET_TYPE_OPTIONS] ;;
          vis <- vis_parse_from_input (nth 0 paths None) ;;
          let s := set self in
          let s := match vis with
                   | Some v => {| set_vis := v; set_name := set_name s;
                                  set_typ := set_typ s; strip_option := strip_option s |}
                   | None => s end in
          name <- name_parse_from_input namevalues ;;
          let s := match name with
                   | Some n => {| set_vis := set_vis s; set_name := n;
                                  set_typ := set_typ s; strip_option := strip_option s |}
                   | None => s end in
          typ <- set_type_parse_from_input namevalues ;;
          let s := match typ with
                   | Some t => {| set_vis := set_vis s; set_name := set_name s;
                                  set_typ := t; strip_option := strip_option s |}
                   | None => s end in
          (* self.set.strip_option = paths[1].is_some(); *)
          let s := {| set_vis := set_vis s; set_name := set_name s; set_typ := set_typ s;
                      strip_option := match nth 1 paths None with
                                      | Some _ => true | None => false end |} in
          Ok (set_set self s)
      else if String.eqb attr "mut" then
          paths <- check_path_params path_params [VISIBILITY_OPTIONS] ;;
          namevalues <- check_namevalue_params namevalue_params
                          [NAME_OPTION; PREFIX_OPTION; SUFFIX_OPTION] ;;
          vis <- vis_parse_from_input (nth 0 paths None) ;;
          let m := mut_ self in
          let m := match vis with
                   | Some v => {| mut_vis := v; mut_name := mut_name m |}
                   | None => m end in
          name <- name_parse_from_input namevalues ;;
          let m := match name with
                   | Some n => {| mut_vis := mut_vis m; mut_name := n |}
                   | None => m end in
          Ok (set_mut self m)
      else if String.eqb attr "ord" then
          r <- ord_parse_from_path_params path_params SORT_TYPE_OPTIONS prop_type ;;
          let '(sort_type_opt, number_opt) := r in
          st <- sort_type_parse_from_input sort_type_opt ;;
          let o := ord self in
          let o := match st with
                   | Some t => {| number := number o; sort_type := t |}
                   | None => o end in
          (* self.ord.number = number_opt; *)
          Ok (set_ord self {| number := number_opt; sort_type := sort_type o |})
      else Err "unsupport attribute"
      end
  | MNameValue _ _ => Err "this attribute should not be a name-value pair"
  end.

(** [parse_nested_meta] *)
Definition parse_nested_meta (conf : FieldConf) (nm : NestedMeta)
    (prop_type : PropertyType) : result FieldConf :=
  match nm with
  | NMeta m => apply_attrs conf m prop_type
  | NLit _ => Err "the attribute in nested meta should not be a literal"
  end.

Fixpoint parse_nested_metas (conf : FieldConf) (nms : list NestedMeta)
    (prop_type : PropertyType) : result FieldConf :=
  match nms with
  | [] => Ok conf
  | nm :: rest =>
      conf' <- parse_nested_meta conf nm prop_type ;;
      parse_nested_metas conf' rest prop_type
  end.

(** A [syn::Attribute]: its style and the result of [parse_meta]. *)
Record Attribute := { attr_outer : bool; attr_meta : option Meta }.

Definition ATTR_NAME := "property".

(** [parse_attrs] *)
Fixpoint parse_attrs (conf : FieldConf) (attrs : list Attribute)
    (prop_type : PropertyType) : result FieldConf :=
  match attrs with
  | [] => Ok conf
  | attr :: rest =>
      if attr_outer attr then
        match attr_meta attr with
        | None => Err "failed to parse the attributes"
        | Some (MPath path) =>
            if is_ident path ATTR_NAME then Err "the attribute should not be a path"
            else parse_attrs conf rest prop_type
        | Some (MList lpath nested) =>
            if is_ident lpath ATTR_NAME then
              match nested with
              | [] => Err "this attribute should not be empty"
              | _ => conf' <- parse_nested_metas conf nested prop_type ;;
                     parse_attrs conf' rest prop_type
              end
            else parse_attrs conf rest prop_type
        | Some (MNameValue path _) =>
            if is_ident path ATTR_NAME
            then Err "the attribute should not be a name-value pair"
            else parse_attrs conf rest prop_type
        end
      else parse_attrs conf rest prop_type
  end.

(** [impl Parse for CrateConfDef]: the arguments of the crate-level
    attribute, applied to [FieldConf::default()]. *)
Definition crate_conf_parse (attr_args : list NestedMeta) : result FieldConf :=
  parse_nested_metas FieldConf_default attr_args PCrate.

(* ------------------------------------------------------------------------- *)
(** ** Crate-default lifecycle ([CrateConfDef], [CRATE_CONF], [INIT_DEFAULT],
       [CALL_COUNT]) *)

(** The process-wide statics of [parse.rs]. *)
Record Globals := {
  crate_conf : option FieldConf;        (* static mut CRATE_CONF *)
  init_default_done : bool;             (* static INIT_DEFAULT: Once *)
  call_count : N                        (* static CALL_COUNT: AtomicUsize *)
}.

Definition globals_init : Globals :=
  {| crate_conf := None; init_default_done := false; call_count := 0%N |}.

(** A computation of the macro that may panic. *)
Inductive run (A : Type) := Done (a : A) | Panic (msg : string).
Arguments Done {A} a.
Arguments Panic {A} msg.

(** [CrateConfDef::set_default_conf] *)
Definition set_default_conf (conf : FieldConf) (g : Globals) : run Globals :=
  match crate_conf g with
  | Some _ =>
      Panic "The default property for the whole crate should be set only once for each crate."
  | None =>
      if (0 <? call_count g)%N then
        Panic "Some properties of containers or fields was set before the default property for the whole crate has been taken effect."
      else if init_default_done g then Done g      (* call_once already ran *)
      else Done {| crate_conf := Some conf; init_default_done := true;
                   call_count := call_count g |}
  end.

(** [CrateConfDef::get_default_conf]; [fetch_add] on an [AtomicUsize] wraps
    around at 2^64. *)
Definition get_default_conf (g : Globals) : FieldConf * Globals :=
  (match crate_conf g with Some c => c | None => FieldConf_default end,
   {| crate_conf := crate_conf g; init_default_done := init_default_done g;
      call_count := ((call_count g + 1) mod 2 ^ 64)%N |}).

(* ------------------------------------------------------------------------- *)
(** ** Per-field method synthesis ([derive_property_for_field], [lib.rs]) *)

Record FieldDef := { ident : string; ty : Ty; conf : FieldConf }.

(** The bound of the setter's parameter: [val: T] with [T: Into<ty>], or
    [val: impl IntoIterator<Item = T>] with [T: Into<inner>]. *)
Inductive ParamBound := BInto (t : Ty) | BIterInto (inner : Ty).

(** The signature of a generated method.  A getter is described by its
    [GetType] (return type and body follow from it); a setter by its
    [SetTypeConf] (receiver and return type follow from it: [&mut self] /
    [&mut Self], [mut self] / [Self], [&mut self] / [()], [&mut self] /
    the field type) and its parameter bound. *)
Inductive Sig :=
| SigGet (g : GetType)
| SigSet (s : SetTypeConf) (bound : ParamBound)
| SigMut.

Record Method := { m_vis : string; m_name : string; m_field : string;
                   m_field_ty : Ty; m_sig : Sig }.

(** The getter kind chosen from the configuration; [lib.rs] names the
    default arm [GetTypeConf::NotSet], which is [GetTypeConf::Auto] of
    [parse.rs]. *)
Definition get_type_of_conf (t : GetTypeConf) (pft : FieldType) : GetType :=
  match t with
  | GAuto => get_type_from_field_type pft
  | GTRef => GRef
  | GTCopy => GCopy
  | GTClone => GClone
  end.

(** [None] is a panic: of [from_type] on an unsupported field type, or of
    [syn::Ident::new] on an enabled method whose completed name is not an
    identifier. *)
Definition derive_property_for_field (field : FieldDef) : option (list Method) :=
  let field_type := ty field in
  let field_name := ident field in
  let field_conf := conf field in
  match from_type field_type with
  | None => None
  | Some prop_field_type =>
      let getter :=
        match to_ts (get_vis (get field_conf)) with
        | None => Some []
        | Some visibility =>
            match complete (get_name (get field_conf)) field_name with
            | None => None
            | Some method_name =>
                Some [{| m_vis := visibility; m_name := method_name;
                         m_field := field_name; m_field_ty := field_type;
                         m_sig := SigGet (get_type_of_conf (get_typ (get field_conf))
                                                           prop_field_type) |}]
            end
        end in
      let setter :=
        match to_ts (set_vis (set field_conf)) with
        | None => Some []
        | Some visibility =>
            match complete (set_name (set field_conf)) field_name with
            | None => None
            | Some method_name =>
                Some [{| m_vis := visibility; m_name := method_name;
                         m_field := field_name; m_field_ty := field_type;
                         m_sig := SigSet (set_typ (set field_conf))
                                    (match prop_field_type with
                                     | Vector inner_type => BIterInto inner_type
                                     | _ => BInto field_type
                                     end) |}]
            end
        end in
      let mutter :=
        match to_ts (mut_vis (mut_ field_conf)) with
        | None => Some []
        | Some visibility =>
            match complete (mut_name (mut_ field_conf)) field_name with
            | None => None
            | Some method_name =>
                Some [{| m_vis := visibility; m_name := method_name;
                         m_field := field_name; m_field_ty := field_type;
                         m_sig := SigMut |}]
            end
        end in
      match getter, setter, mutter with
      | Some getter, Some setter, Some mutter => Some (getter ++ setter ++ mutter)%list
      | _, _, _ => None
      end
  end.

(* ------------------------------------------------------------------------- *)
(** ** Run-time behaviour of the generated methods *)

(** Values stored in fields: numbers, booleans, characters, [String]s,
    arrays and [Vec]s (both a sequence of elements), [Option]s and values of
    any other type. *)
Inductive Val :=
| VNum (z : nat)
| VBool (b : bool)
| VChar (c : ascii)
| VStr (s : string)
| VSeq (l : list Val)
| VOpt (o : option Val)
| VOpaque (n : nat).

(** An instance of the struct maps each field name to its value. *)
Definition Instance := string -> Val.

Definition update (inst : Instance) (f : string) (v : Val) : Instance :=
  fun f' => if String.eqb f' f then v else inst f'.

(** What a getter hands out: a reference to the field, a copy, a clone, a
    [&str] view of the whole string ([&self.f[..]]), a slice over all the
    elements ([&self.f[..]]) or an [Option<&T>] ([self.f.as_ref()]). *)
Inductive Ret :=
| RRef (v : Val)
| RCopy (v : Val)
| RClone (v : Val)
| RStr (s : string)
| RSlice (l : list Val)
| ROptRef (o : option Val).

(** The body of each getter kind; [None] where the body does not type-check
    for the stored value. *)
Definition get_body (g : GetType) (v : Val) : option Ret :=
  match g, v with
  | GRef, _ => Some (RRef v)
  | GCopy, _ => Some (RCopy v)
  | GClone, _ => Some (RClone v)
  | GString, VStr s => Some (RStr (substring 0 (String.length s) s))
  | GSlice _, VSeq l => Some (RSlice (firstn (length l) l))
  | GOption _, VOpt o => Some (ROptRef o)
  | _, _ => None
  end.

(** The value a getter result denotes. *)
Definition ret_val (r : Ret) : Val :=
  match r with
  | RRef v | RCopy v | RClone v => v
  | RStr s => VStr s
  | RSlice l => VSeq l
  | ROptRef o => VOpt o
  end.

Definition call_getter (m : Method) (inst : Instance) : option Ret :=
  match m_sig m with
  | SigGet g => get_body g (inst (m_field m))
  | _ => None
  end.

(** The argument passed to a setter: one value, or the items of an
    iterator. *)
Inductive SetArg := ArgOne (a : Val) | ArgIter (l : list Val).

(** What a setter returns. *)
Inductive SetRet := RetSelfRef | RetSelf | RetUnit | RetOld (old : Val).

(** The body of a setter; [into] is the [Into] conversion of the argument.
    [SReplace] is [::core::mem::replace(&mut self.f, new)]. *)
Definition call_setter (m : Method) (into : Val -> Val) (inst : Instance)
    (arg : SetArg) : option (Instance * SetRet) :=
  match m_sig m with
  | SigSet st bound =>
      let new :=
        match bound, arg with
        | BIterInto _, ArgIter l => Some (VSeq (map into l))
        | BInto _, ArgOne a => Some (into a)
        | _, _ => None
        end in
      match new with
      | None => None
      | Some v =>
          let inst' := update inst (m_field m) v in
          Some (inst',
                match st with
                | SRef => RetSelfRef
                | SOwn => RetSelf
                | SNone => RetUnit
                | SReplace => RetOld (inst (m_field m))
                end)
      end
  | _ => None
  end.

(* ------------------------------------------------------------------------- *)
(** ** Ordering and equality ([implement_traits], [lib.rs]) *)

Definition ord_number (f : FieldDef) : option N := number (ord (conf f)).

Definition has_number (f : FieldDef) : bool :=
  match ord_number f with Some _ => true | None => false end.

(** [f.conf.ord.number.unwrap()] (only called on fields that have one). *)
Definition key (f : FieldDef) : N :=
  match ord_number f with Some n => n | None => 0%N end.

(** [ordered.sort_by(|f1, f2| n1.cmp(&n2))]: a stable sort by ordinal;
    insertion sort gives the same order as the standard library's stable
    merge sort. *)
Fixpoint insert_by_key (f : FieldDef) (l : list FieldDef) : list FieldDef :=
  match l with
  | [] => [f]
  | g :: l' => if (key g <=? key f)%N then g :: insert_by_key f l' else f :: l
  end.

Fixpoint sort_by_key (l : list FieldDef) : list FieldDef :=
  match l with
  | [] => []
  | f :: l' => insert_by_key f (sort_by_key l')
  end.

(** [ordered.windows(2).any(|f| n1 == n2)] *)
Fixpoint has_same_serial_number (l : list FieldDef) : bool :=
  match l with
  | f1 :: ((f2 :: _) as l') => (key f1 =? key f2)%N || has_same_serial_number l'
  | _ => false
  end.

(** The generated impls: [eq] conjoins [self.f == other.f] over
    [eq_fields]; [partial_cmp] runs one statement per entry of [cmp_stmts],
    the flag telling whether it reads [self.f.partial_cmp(&other.f)]
    (ascending) or [other.f.partial_cmp(&self.f)] (descending). *)
Record TraitImpls := { eq_fields : list string;
                       cmp_stmts : list (string * bool) }.

Definition implement_traits (fields : list FieldDef) : run (option TraitImpls) :=
  let ordered := filter has_number fields in
  match ordered with
  | [] => Done None
  | _ =>
      let ordered := sort_by_key ordered in
      if has_same_serial_number ordered then
        Panic "there are at least two fields that have same serial number"
      else
        Done (Some {| eq_fields := map ident ordered;
                      cmp_stmts := map (fun f => (ident f,
                                          is_ascending (sort_type (ord (conf f)))))
                                       ordered |})
  end.

Section Comparison.

(** [PartialOrd::partial_cmp] of the field types. *)
Variable partial_cmp : Val -> Val -> option comparison.

Definition option_comparison_eqb (a b : option comparison) : bool :=
  match a, b with
  | Some Eq, Some Eq | Some Lt, Some Lt | Some Gt, Some Gt | None, None => true
  | _, _ => false
  end.

(** The body of the generated [partial_cmp(&self, other)]. *)
Fixpoint run_cmp_stmts (stmts : list (string * bool)) (self other : Instance)
  : option comparison :=
  match stmts with
  | [] => Some Eq
  | (f, asc) :: rest =>
      let result := if asc then partial_cmp (self f) (other f)
                    else partial_cmp (other f) (self f) in
      if negb (option_comparison_eqb result (Some Eq)) then result
      else run_cmp_stmts rest self other
  end.

Definition generated_partial_cmp (impls : TraitImpls) (self other : Instance)
  : option comparison :=
  run_cmp_stmts (cmp_stmts impls) self other.

End Comparison.

(* ------------------------------------------------------------------------- *)
(** ** [derive_property] *)

(** The steps of the expansion, in the order the code performs them. *)
Inductive Event :=
| EFieldMethods (field : string) (methods : list Method)
| ETraits (impls : option TraitImpls).

Record Expansion := { methods : list Method; traits : option TraitImpls }.

(** The fold over [property.fields]: skipped fields produce nothing. *)
Fixpoint synth_methods (fields : list FieldDef) (log : list Event)
  : list Event * run (list Method) :=
  match fields with
  | [] => (log, Done [])
  | f :: rest =>
      if skip (conf f) then synth_methods rest log
      else
        match derive_property_for_field f with
        | None => (log, Panic "derive_property_for_field panicked")
        | Some ms =>
            let log := (log ++ [EFieldMethods (ident f) ms])%list in
            let '(log, r) := synth_methods rest log in
            (log, match r with Done ms' => Done (ms ++ ms')%list
                             | Panic m => Panic m end)
        end
  end.

(** [derive_property] on a parsed struct: the per-field methods are built
    first, then [implement_traits] runs. *)
Definition derive_property (fields : list FieldDef) : list Event * run Expansion :=
  let '(log, r) := synth_methods fields [] in
  match r with
  | Panic m => (log, Panic m)
  | Done ms =>
      match implement_traits fields with
      | Panic m => (log, Panic m)
      | Done t => ((log ++ [ETraits t])%list, Done {| methods := ms; traits := t |})
      end
  end.

(* ------------------------------------------------------------------------- *)
(** ** Statement-side definitions *)

(** The process-wide statics as the macro leaves them: only
    [set_default_conf] and [get_default_conf] change them. *)
Inductive reachable : Globals -> Prop :=
| reach_init : reachable globals_init
| reach_set (g g' : Globals) (c : FieldConf) :
    reachable g -> set_default_conf c g = Done g' -> reachable g'
| reach_get (g : Globals) :
    reachable g -> reachable (snd (get_default_conf g)).

(** A stored value fits the classified shape of its field. *)
Definition value_fits (ft : FieldType) (v : Val) : bool :=
  match ft, v with
  | Number, VNum _ | Boolean, VBool _ | Character, VChar _
  | String_, VStr _ | Array _ _, VSeq _ | Vector _, VSeq _
  | Option_ _, VOpt _ => true
  | Unhandled, _ => true
  | _, _ => false
  end.

(** The getter result the specification assigns to each shape in [Auto]
    mode: a copy for numbers, booleans and characters; a read-only view of
    the whole text; a slice over all the elements of an array or vector; an
    optional reference to the inner value of an option; a reference to the
    field otherwise. *)
Definition auto_getter_spec (ft : FieldType) (v : Val) : Ret :=
  match ft, v with
  | (Number | Boolean | Character), _ => RCopy v
  | String_, VStr s => RStr s
  | (Array _ _ | Vector _), VSeq l => RSlice l
  | Option_ _, VOpt o => ROptRef o
  | _, _ => RRef v
  end.

(** The ordering the specification describes, over the ordinal fields
    listed in ascending ordinal order. *)
Fixpoint spec_partial_cmp (partial_cmp : Val -> Val -> option comparison)
    (l : list FieldDef) (a b : Instance) : option comparison :=
  match l with
  | [] => Some Eq
  | f :: rest =>
      let c := match sort_type (ord (conf f)) with
               | Ascending => partial_cmp (a (ident f)) (b (ident f))
               | Descending => partial_cmp (b (ident f)) (a (ident f))
               end in
      match c with
      | Some Eq => spec_partial_cmp partial_cmp rest a b
      | _ => c
      end
  end.

(** Orders on fields by ordinal. *)
Definition key_le (a b : FieldDef) : Prop := (key a <= key b)%N.
Definition key_lt (a b : FieldDef) : Prop := (key a < key b)%N.

(** The bare words and the keys of the name-value pairs of a group. *)
Definition words_of (nested : list NestedMeta) : list string :=
  flat_map (fun nm => match nm with NMeta (MPath [w]) => [w] | _ => [] end) nested.

Definition keys_of (nested : list NestedMeta) : list string :=
  flat_map (fun nm => match nm with NMeta (MNameValue [k] _) => [k] | _ => [] end)
           nested.

Definition unmentioned (opts xs : list string) : Prop :=
  forall w, In w opts -> ~ In w xs.

(** What applying one attribute group may change: the sub-fields the group
    names; a [set] group sets [strip_option] to whether it lists
    [strip_option]; an [ord] group sets the ordinal to the one it carries,
    which is required at field scope and refused at crate and container
    scope. *)
Definition group_effect (m : Meta) (pt : PropertyType) (c c' : FieldConf) : Prop :=
  match m with
  | MPath _ => c' = set_skip c true
  | MNameValue _ _ => False
  | MList p nested =>
      let ws := words_of nested in
      let ks := keys_of nested in
      match get_ident p with
      | None => False
      | Some attr =>
      if String.eqb attr "get" then
          set c' = set c /\ mut_ c' = mut_ c /\ ord c' = ord c /\ skip c' = skip c /\
          (unmentioned VISIBILITY_OPTIONS ws -> get_vis (get c') = get_vis (get c)) /\
          (unmentioned ["name"; "prefix"; "suffix"] ks ->
             get_name (get c') = get_name (get c)) /\
          (~ In "type" ks -> get_typ (get c') = get_typ (get c))
      else if String.eqb attr "set" then
          get c' = get c /\ mut_ c' = mut_ c /\ ord c' = ord c /\ skip c' = skip c /\
          (unmentioned VISIBILITY_OPTIONS ws -> set_vis (set c') = set_vis (set c)) /\
          (unmentioned ["name"; "prefix"; "suffix"] ks ->
             set_name (set c') = set_name (set c)) /\
          (~ In "type" ks -> set_typ (set c') = set_typ (set c)) /\
          (strip_option (set c') = true <-> In "strip_option" ws)
      else if String.eqb attr "mut" then
          get c' = get c /\ set c' = set c /\ ord c' = ord c /\ skip c' = skip c /\
          (unmentioned VISIBILITY_OPTIONS ws -> mut_vis (mut_ c') = mut_vis (mut_ c)) /\
          (unmentioned ["name"; "prefix"; "suffix"] ks ->
             mut_name (mut_ c') = mut_name (mut_ c))
      else if String.eqb attr "ord" then
          get c' = get c /\ set c' = set c /\ mut_ c' = mut_ c /\ skip c' = skip c /\
          (unmentioned SORT_TYPE_OPTIONS ws ->
             sort_type (ord c') = sort_type (ord c)) /\
          (pt = PField -> number (ord c') <> None) /\
          (pt <> PField -> number (ord c') = None)
      else False
      end
  end.

(** The new value a setter stores. *)
Definition converted (into : Val -> Val) (arg : SetArg) : Val :=
  match arg with ArgOne a => into a | ArgIter l => VSeq (map into l) end.

(** Field types used in the concrete checks. *)
Definition u8_ty : Ty := TPath [Seg "u8" PANone].
Definition option_u8_ty : Ty := TPath [Seg "Option" (PAAngle [GAType u8_ty])].

Definition auto_witness_field : FieldDef :=
  {| ident := "s"; ty := TPath [Seg "String" PANone]; conf := FieldConf_default |}.

Definition auto_witness_methods : list Method :=
  match derive_property_for_field auto_witness_field with Some ms => ms | None => [] end.

Definition auto_witness_getter : Method :=
  hd {| m_vis := ""; m_name := ""; m_field := ""; m_field_ty := u8_ty; m_sig := SigMut |}
     auto_witness_methods.

Definition replace_witness_field : FieldDef :=
  {| ident := "v"; ty := TPath [Seg "Vec" (PAAngle [GAType u8_ty])];
     conf := set_set FieldConf_default
               {| set_vis := Crate; set_name := Format "set_" ""; set_typ := SReplace;
                  strip_option := false |} |}.

Definition replace_witness_methods : list Method :=
  match derive_property_for_field replace_witness_field with Some ms => ms | None => [] end.

Definition replace_witness_getter : Method := nth 0 replace_witness_methods auto_witness_getter.
Definition replace_witness_setter : Method := nth 1 replace_witness_methods auto_witness_getter.

Definition replace_witness_instance : Instance :=
  fun f => if String.eqb f "v" then VSeq [VNum 1; VNum 2] else VOpaque 0.

(** Fields carrying an ordinal, for the concrete checks of the generated
    ordering. *)
Definition ord_field (name : string) (n : N) (st : SortTypeConf) : FieldDef :=
  {| ident := name; ty := u8_ty;
     conf := set_ord FieldConf_default {| number := Some n; sort_type := st |} |}.

Definition dup_fields : list FieldDef :=
  [ord_field "x" 0 Ascending; ord_field "y" 0 Ascending].

Definition mixed_fields : list FieldDef :=
  [ord_field "b" 2 Descending;
   {| ident := "c"; ty := u8_ty; conf := FieldConf_default |};
   ord_field "a" 1 Ascending].

(** [PartialOrd] on numbers; other values are incomparable. *)
Definition num_partial_cmp (a b : Val) : option comparison :=
  match a, b with VNum x, VNum y => Some (Nat.compare x y) | _, _ => None end.

(* ------------------------------------------------------------------------- *)
(** ** [impl Parse for ContainerDef] and [FieldDef::parse_named_fields] *)

(** A field of a [syn::FieldsNamed]: its attributes, identifier and type. *)
Record SynField := { field_attrs : list Attribute; field_ident : option string;
                     field_ty : Ty }.

(** [syn::Data] with the shape of a struct's fields. *)
Inductive Data :=
| DNamed (named : list SynField)     (* struct with syn::Fields::Named *)
| DUnnamed                           (* tuple struct *)
| DUnit                              (* unit struct *)
| DEnum
| DUnion.

Record DeriveInput := { input_attrs : list Attribute; input_ident : string;
                        input_data : Data }.

Record ContainerDef := { container_name : string; container_fields : list FieldDef }.

(** The loop of [FieldDef::parse_named_fields]: every field starts from a
    clone of the container configuration. *)
Fixpoint parse_named_fields_loop (fs : list SynField) (conf : FieldConf)
  : result (list FieldDef) :=
  match fs with
  | [] => Ok []
  | f :: rest =>
      c <- parse_attrs conf (field_attrs f) PField ;;
      match field_ident f with
      | None => Err "unreachable"
      | Some i =>
          rest' <- parse_named_fields_loop rest conf ;;
          Ok ({| ident := i; ty := field_ty f; conf := c |} :: rest')
      end
  end.

Definition parse_named_fields (fs : list SynField) (conf : FieldConf)
  : result (list FieldDef) :=
  fields <- parse_named_fields_loop fs conf ;;
  match fields with
  | [] => Err "nothing can do for an empty struct"
  | _ => Ok fields
  end.

(** [ContainerDef::parse], threading the process-wide statics. *)
Definition container_parse (g : Globals) (di : DeriveInput)
  : Globals * result ContainerDef :=
  match input_data di with
  | DNamed named =>
      let '(conf, g') := get_default_conf g in
      (g', conf <- parse_attrs conf (input_attrs di) PContainer ;;
           fields <- parse_named_fields named conf ;;
           Ok {| container_name := input_ident di; container_fields := fields |})
  | DUnnamed | DUnit => (g, Err "only support named fields")
  | DEnum | DUnion => (g, Err "only support structs")
  end.

(** The body of the generated [eq(&self, other)]:
    [self.f1 == other.f1 && self.f2 == other.f2 && ...]. *)
Definition generated_eq (val_eq : Val -> Val -> bool) (impls : TraitImpls)
    (self other : Instance) : bool :=
  forallb (fun f => val_eq (self f) (other f)) (eq_fields impls).

(** Decimal notation of a digit list, and its value, for the ordinal words
    [_<digits>]. *)
Definition digit_char (d : nat) : ascii := ascii_of_nat (48 + d).

Fixpoint decimal (ds : list nat) : string :=
  match ds with [] => EmptyString | d :: ds' => String (digit_char d) (decimal ds') end.

Fixpoint digits_value (ds : list nat) (acc : N) : N :=
  match ds with [] => acc | d :: ds' => digits_value ds' (acc * 10 + N.of_nat d)%N end.

(** [syn::Meta::path] *)
Definition meta_path (m : Meta) : Path :=
  match m with MPath p | MList p _ | MNameValue p _ => p end.

(** A field annotation used in the concrete checks below. *)
Definition skip_sticky_attrs : list Attribute :=
  [{| attr_outer := true;
      attr_meta := Some (MList ["property"]
                     [NMeta (MList ["get"] [NMeta (MPath ["public"])]);
                      NMeta (MList ["ord"] [NMeta (MPath ["desc"]); NMeta (MPath ["_3"])])]) |}].

(** A container annotation [#[property(ord(desc))]]. *)
Definition container_ord_attrs : list Attribute :=
  [{| attr_outer := true;
      attr_meta := Some (MList ["property"] [NMeta (MList ["ord"] [NMeta (MPath ["desc"])])]) |}].


(** [PartialEq] on numbers, matching [num_partial_cmp]. *)
Definition num_eq (a b : Val) : bool :=
  match a, b with VNum x, VNum y => Nat.eqb x y | _, _ => false end.

Definition skipped_field : FieldDef :=
  {| ident := "t"; ty := u8_ty; conf := set_skip FieldConf_default true |}.

Definition mixed_impls : TraitImpls :=
  match implement_traits mixed_fields with
  | Done (Some t) => t
  | _ => {| eq_fields := []; cmp_stmts := [] |}
  end.

Definition inst_a : Instance :=
  fun f => if String.eqb f "a" then VNum 1 else if String.eqb f "b" then VNum 5
           else VOpaque 0.

Definition inst_b : Instance :=
  fun f => if String.eqb f "a" then VNum 1 else if String.eqb f "b" then VNum 5
           else VNum 9.

(** A struct with a container annotation and two named fields. *)
Definition sample_input : DeriveInput :=
  {| input_attrs :=
       [{| attr_outer := true;
           attr_meta := Some (MList ["property"] [NMeta (MList ["get"] [NMeta (MPath ["public"])])]) |}];
     input_ident := "S";
     input_data :=
       DNamed [{| field_attrs :=
                    [{| attr_outer := true;
                        attr_meta := Some (MList ["property"]
                                       [NMeta (MList ["ord"] [NMeta (MPath ["_1"])])]) |}];
                  field_ident := Some "a"; field_ty := u8_ty |};
               {| field_attrs := []; field_ident := Some "b"; field_ty := u8_ty |}] |}.

(** A field of type [std::string::String], written as a qualified path. *)
Definition qualified_field : FieldDef :=
  {| ident := "name";
     ty := TPath [Seg "std" PANone; Seg "string" PANone; Seg "String" PANone];
     conf := FieldConf_default |}.

Definition qualified_methods : list Method :=
  match derive_property_for_field qualified_field with Some ms => ms | None => [] end.

(** Steps through one [x <- r ;; k] of a successful computation. *)
Ltac bind_step E :=
  match goal with
  | H : bind ?r _ = Ok _ |- _ => destruct r eqn:E; cbn [bind] in H; [| discriminate H]
  end.

(* ========================================================================= *)
(** * Theorems *)

Lemma string_app_empty_r (s : string) : s ++ "" = s.
Proof. induction s as [| a s IH]; simpl; [reflexivity | now rewrite IH]. Qed.

Lemma string_forallb_app (p : ascii -> bool) (s1 s2 : string) :
  string_forallb p (s1 ++ s2) = string_forallb p s1 && string_forallb p s2.
Proof.
  induction s1 as [| c s1 IH]; simpl; [reflexivity |].
  now rewrite IH, andb_assoc.
Qed.

Lemma valid_ident_continue_all (s : string) :
  valid_ident s = true -> string_forallb is_ident_continue s = true.
Proof.
  destruct s as [| c rest]; cbn [valid_ident string_forallb]; [discriminate |].
  intros H. apply andb_prop in H as [H1 H2].
  unfold is_ident_continue at 1. now rewrite H1, H2.
Qed.

Lemma valid_ident_app (p s : string) :
  valid_ident p = true -> valid_ident s = true -> valid_ident (p ++ s) = true.
Proof.
  intros Hp Hs. destruct p as [| c rest]; [discriminate |].
  cbn [valid_ident append] in *. apply andb_prop in Hp as [H1 H2].
  rewrite H1, string_forallb_app, H2. cbn [andb].
  now apply valid_ident_continue_all.
Qed.


(** C4 (code_bug): the classifier is not total.  A single-segment path
    [Vec] or [Option] without angle-bracketed arguments, and [Vec<>] with an
    empty argument list, make [FieldType::from_type] panic
    ([unreachable!()], or the index [inner.args[0]]) instead of falling
    back to [Unhandled]. *)
Theorem from_type_panics_without_type_arguments :
  from_type (TPath [Seg "Vec" PANone]) = None /\
  from_type (TPath [Seg "Option" PANone]) = None /\
  from_type (TPath [Seg "Vec" (PAAngle [])]) = None /\
  from_type (TPath [Seg "Vec" (PAAngle [GALifetime "a"])]) = None.
Proof. repeat split; reflexivity. Qed.

(** C1 (code_bug): [set(strip_option)] is parsed and stored, but the setter
    synthesized for an [Option<u8>] field still takes [T: Into<Option<u8>>]
    and stores the converted argument as it is, without wrapping it. *)
Theorem strip_option_setter_takes_full_option_type :
  match apply_attrs FieldConf_default
          (MList ["set"] [NMeta (MPath ["strip_option"])]) PField with
  | Ok c =>
      strip_option (set c) = true /\
      match derive_property_for_field {| ident := "x"; ty := option_u8_ty; conf := c |} with
      | Some [_; setter; _] =>
          m_sig setter = SigSet SRef (BInto option_u8_ty) /\
          match call_setter setter (fun v => v) (fun _ => VOpt None) (ArgOne (VNum 3)) with
          | Some (inst', _) => inst' "x" = VNum 3
          | None => False
          end
      | _ => False
      end
  | Err _ => False
  end.
Proof. vm_compute. repeat split; reflexivity. Qed.

(** C2 (counterexample): a bare [skip] is accepted at container scope and
    in the crate-level arguments, where it sets [skip = true]. *)
Lemma bare_skip_accepted_outside_field_scope :
  apply_attrs FieldConf_default (MPath ["skip"]) PContainer =
    Ok (set_skip FieldConf_default true) /\
  crate_conf_parse [NMeta (MPath ["skip"])] = Ok (set_skip FieldConf_default true).
Proof. split; reflexivity. Qed.

(** C2 (amended): at every scope (crate, container or field) a bare word
    [skip] sets [skip = true] and leaves everything else as inherited; any
    other bare word is an error. *)
Theorem bare_skip_any_scope (c : FieldConf) (p : Path) (pt : PropertyType) :
  apply_attrs c (MPath p) pt =
    if is_ident p SKIP then Ok (set_skip c true)
    else Err "this attribute was unknown".
Proof. reflexivity. Qed.

(** With no crate default set and no annotation on the container or the
    field, the container's configuration is [FieldConf::default()] and every
    field whose name is a plain identifier and whose type classifies gets
    exactly a getter named after the field (in [Auto] mode), a chaining
    [&mut self] setter [set_<field>] and a [mut_<field>] accessor, all three
    [pub(crate)]. *)
Theorem default_field_methods (g : Globals) (field_name : string) (t : Ty)
    (ft : FieldType) :
  crate_conf g = None ->
  valid_ident field_name = true ->
  from_type t = Some ft ->
  parse_attrs (fst (get_default_conf g)) [] PContainer = Ok FieldConf_default /\
  parse_attrs FieldConf_default [] PField = Ok FieldConf_default /\
  derive_property_for_field {| ident := field_name; ty := t; conf := FieldConf_default |} =
    Some [{| m_vis := "pub(crate)"; m_name := field_name; m_field := field_name;
             m_field_ty := t; m_sig := SigGet (get_type_from_field_type ft) |};
          {| m_vis := "pub(crate)"; m_name := "set_" ++ field_name;
             m_field := field_name; m_field_ty := t;
             m_sig := SigSet SRef (match ft with Vector inner => BIterInto inner
                                                | _ => BInto t end) |};
          {| m_vis := "pub(crate)"; m_name := "mut_" ++ field_name;
             m_field := field_name; m_field_ty := t; m_sig := SigMut |}].
Proof.
  intros Hg Hv Hft. unfold get_default_conf. rewrite Hg. simpl.
  split; [reflexivity | split; [reflexivity |]].
  unfold derive_property_for_field, complete. cbn - [valid_ident append]. rewrite Hft.
  rewrite !string_app_empty_r. change ("" ++ field_name) with field_name.
  rewrite Hv, (valid_ident_app "set_" field_name eq_refl Hv),
    (valid_ident_app "mut_" field_name eq_refl Hv).
  reflexivity.
Qed.

Lemma default_field_methods_witness :
  crate_conf globals_init = None /\ valid_ident "x" = true /\
  from_type u8_ty = Some Number /\
  (parse_attrs (fst (get_default_conf globals_init)) [] PContainer = Ok FieldConf_default /\
   parse_attrs FieldConf_default [] PField = Ok FieldConf_default /\
   derive_property_for_field {| ident := "x"; ty := u8_ty; conf := FieldConf_default |} =
    Some [{| m_vis := "pub(crate)"; m_name := "x"; m_field := "x";
             m_field_ty := u8_ty; m_sig := SigGet (get_type_from_field_type Number) |};
          {| m_vis := "pub(crate)"; m_name := "set_" ++ "x";
             m_field := "x"; m_field_ty := u8_ty;
             m_sig := SigSet SRef (match Number with Vector inner => BIterInto inner
                                                | _ => BInto u8_ty end) |};
          {| m_vis := "pub(crate)"; m_name := "mut_" ++ "x";
             m_field := "x"; m_field_ty := u8_ty; m_sig := SigMut |}]).
Proof.
  split; [reflexivity | split; [reflexivity | split; [reflexivity |]]].
  apply (default_field_methods globals_init "x" u8_ty Number); reflexivity.
Defined.

(** C10 (code_bug): a field declared with the raw identifier [r#type], with
    no crate default and no annotation on the container or the field, gets
    the fully defaulted configuration, but its getter's name is the text
    ["r#type"] of the identifier, which [syn::Ident::new] rejects: no method
    is synthesized for the field and the expansion of the struct panics
    without producing anything. *)
Theorem raw_field_default_panics :
  crate_conf globals_init = None /\
  parse_attrs (fst (get_default_conf globals_init)) [] PContainer = Ok FieldConf_default /\
  parse_attrs FieldConf_default [] PField = Ok FieldConf_default /\
  complete (get_name (get FieldConf_default)) "r#type" = None /\
  derive_property_for_field
    {| ident := "r#type"; ty := u8_ty; conf := FieldConf_default |} = None /\
  derive_property [{| ident := "r#type"; ty := u8_ty; conf := FieldConf_default |}] =
    ([], Panic "derive_property_for_field panicked").
Proof. vm_compute. repeat split. Qed.

(** In every reachable state the [Once] has run exactly when [CRATE_CONF]
    holds a configuration. *)
Lemma reachable_once_flag (g : Globals) :
  reachable g ->
  init_default_done g = match crate_conf g with Some _ => true | None => false end.
Proof.
  induction 1 as [| g g' c Hr IH Hset | g Hr IH].
  - reflexivity.
  - unfold set_default_conf in Hset.
    destruct (crate_conf g) as [c0 |] eqn:E; [discriminate |].
    destruct (0 <? call_count g)%N; [discriminate |].
    rewrite IH in Hset. injection Hset as <-. reflexivity.
  - exact IH.
Qed.

(** C8: once the crate default has been set, every further attempt panics,
    whatever its content; an attempt panics as soon as the resolution
    counter is nonzero, in particular right after a container configuration
    has been resolved. *)
Theorem crate_default_lifecycle :
  (forall (g g' : Globals) (c c' : FieldConf),
      reachable g -> set_default_conf c g = Done g' ->
      exists msg, set_default_conf c' g' = Panic msg) /\
  (forall (g : Globals) (c : FieldConf),
      call_count g <> 0%N -> exists msg, set_default_conf c g = Panic msg) /\
  (forall (g : Globals) (c : FieldConf),
      (call_count g < 2 ^ 64 - 1)%N ->
      exists msg, set_default_conf c (snd (get_default_conf g)) = Panic msg).
Proof.
  split; [| split].
  - intros g g' c c' Hr Hset.
    pose proof (reachable_once_flag g Hr) as Hflag.
    unfold set_default_conf in Hset.
    destruct (crate_conf g) as [c0 |] eqn:E; [discriminate |].
    destruct (0 <? call_count g)%N; [discriminate |].
    rewrite Hflag in Hset. injection Hset as <-.
    eexists. reflexivity.
  - intros g c Hc. unfold set_default_conf.
    destruct (crate_conf g); [eexists; reflexivity |].
    replace (0 <? call_count g)%N with true by (symmetry; apply N.ltb_lt; lia).
    eexists. reflexivity.
  - intros g c Hlt. unfold set_default_conf, get_default_conf. simpl.
    destruct (crate_conf g); [eexists; reflexivity |].
    rewrite N.mod_small by lia.
    replace (0 <? call_count g + 1)%N with true by (symmetry; apply N.ltb_lt; lia).
    eexists. reflexivity.
Qed.

Lemma substring_whole (s : string) : substring 0 (String.length s) s = s.
Proof. induction s as [| a s IH]; simpl; [reflexivity | now rewrite IH]. Qed.

(** The value handed out by a getter is the stored value. *)
Lemma get_body_val (g : GetType) (v : Val) (r : Ret) :
  get_body g v = Some r -> ret_val r = v.
Proof.
  destruct g, v; simpl; intro H; try discriminate; injection H as <-; simpl;
    try reflexivity.
  - now rewrite substring_whole.
  - now rewrite firstn_all.
Qed.

(** Every method synthesized for a field names that field, and its getter
    (if any) comes from the getter configuration. *)
Lemma derive_methods_shape (f : FieldDef) (ms : list Method) (m : Method) :
  derive_property_for_field f = Some ms -> In m ms ->
  exists ft, from_type (ty f) = Some ft /\ m_field m = ident f /\
    (forall g, m_sig m = SigGet g -> g = get_type_of_conf (get_typ (get (conf f))) ft) /\
    (forall st b, m_sig m = SigSet st b ->
       st = set_typ (set (conf f)) /\
       b = match ft with Vector inner => BIterInto inner | _ => BInto (ty f) end).
Proof.
  unfold derive_property_for_field.
  destruct (from_type (ty f)) as [ft |] eqn:Hft; [| discriminate].
  intros H Hin. exists ft. split; [reflexivity |].
  destruct (to_ts (get_vis (get (conf f))));
    destruct (complete (get_name (get (conf f))) (ident f));
    destruct (to_ts (set_vis (set (conf f))));
    destruct (complete (set_name (set (conf f))) (ident f));
    destruct (to_ts (mut_vis (mut_ (conf f))));
    destruct (complete (mut_name (mut_ (conf f))) (ident f));
    try discriminate H; injection H as <-;
    simpl in Hin; repeat destruct Hin as [<- | Hin]; try contradiction;
    simpl; repeat split; intros; try discriminate;
    match goal with H : _ = _ |- _ => injection H; intros; subst; auto end.
Qed.

(** C5: in [Auto] mode the getter's result is chosen by the classified shape:
    a copy for numbers, booleans and characters, a view of the whole text, a
    slice over all the elements of arrays and vectors, [as_ref()] of an
    option, and a reference to the field otherwise. *)
Theorem auto_getter_by_shape (f : FieldDef) (ms : list Method) (m : Method)
    (g : GetType) :
  get_typ (get (conf f)) = GAuto ->
  derive_property_for_field f = Some ms -> In m ms -> m_sig m = SigGet g ->
  exists ft, from_type (ty f) = Some ft /\ g = get_type_from_field_type ft /\
    forall inst : Instance, value_fits ft (inst (ident f)) = true ->
      call_getter m inst = Some (auto_getter_spec ft (inst (ident f))).
Proof.
  intros Hauto Hd Hin Hsig.
  destruct (derive_methods_shape f ms m Hd Hin) as (ft & Hft & Hfield & Hget & _).
  specialize (Hget g Hsig). rewrite Hauto in Hget. simpl in Hget. subst g.
  exists ft. split; [exact Hft | split; [reflexivity |]].
  intros inst Hfits. unfold call_getter. rewrite Hsig, Hfield.
  destruct ft, (inst (ident f)); simpl in Hfits |- *; try discriminate;
    try reflexivity.
  - now rewrite substring_whole.
  - now rewrite firstn_all.
  - now rewrite firstn_all.
Qed.

Lemma auto_getter_by_shape_witness :
  get_typ (get (conf auto_witness_field)) = GAuto /\
  derive_property_for_field auto_witness_field = Some auto_witness_methods /\
  In auto_witness_getter auto_witness_methods /\
  m_sig auto_witness_getter = SigGet GString /\
  exists ft, from_type (ty auto_witness_field) = Some ft /\
    GString = get_type_from_field_type ft /\
    forall inst : Instance, value_fits ft (inst (ident auto_witness_field)) = true ->
      call_getter auto_witness_getter inst =
        Some (auto_getter_spec ft (inst (ident auto_witness_field))).
Proof.
  split; [reflexivity |]. split; [vm_compute; reflexivity |].
  split; [simpl; left; reflexivity |]. split; [reflexivity |].
  apply (auto_getter_by_shape auto_witness_field auto_witness_methods
           auto_witness_getter GString);
    [reflexivity | vm_compute; reflexivity | simpl; left; reflexivity | reflexivity].
Defined.

(** C9: a [replace] setter returns the value that the field's getter would
    have handed out just before the call, a getter call afterwards hands out
    the new (converted) value, and no other field changes. *)
Theorem replace_setter_swaps (f : FieldDef) (ms : list Method) (getter setter : Method)
    (g : GetType) (b : ParamBound) (into : Val -> Val) (inst inst' : Instance)
    (arg : SetArg) (ret : SetRet) :
  derive_property_for_field f = Some ms ->
  In getter ms -> m_sig getter = SigGet g ->
  In setter ms -> m_sig setter = SigSet SReplace b ->
  call_setter setter into inst arg = Some (inst', ret) ->
  ret = RetOld (inst (ident f)) /\
  (forall r, call_getter getter inst = Some r -> ret = RetOld (ret_val r)) /\
  inst' (ident f) = converted into arg /\
  (forall r, call_getter getter inst' = Some r -> ret_val r = converted into arg) /\
  (forall x, x <> ident f -> inst' x = inst x).
Proof.
  intros Hd Hing Hsg Hins Hss Hcall.
  destruct (derive_methods_shape f ms getter Hd Hing) as (ft & _ & Hgf & _).
  destruct (derive_methods_shape f ms setter Hd Hins) as (ft' & _ & Hsf & _ & Hset).
  destruct (Hset _ _ Hss) as [_ Hb].
  unfold call_setter in Hcall. rewrite Hss, Hsf in Hcall.
  assert (Hnew : match b, arg with
                 | BIterInto _, ArgIter l => Some (VSeq (map into l))
                 | BInto _, ArgOne a => Some (into a)
                 | _, _ => None
                 end = Some (converted into arg)).
  { destruct b, arg; simpl in Hcall |- *; first [reflexivity | discriminate]. }
  rewrite Hnew in Hcall. injection Hcall as <- <-.
  assert (Hself : update inst (ident f) (converted into arg) (ident f) = converted into arg).
  { unfold update. now rewrite String.eqb_refl. }
  split; [reflexivity |]. split.
  - intros r Hr. unfold call_getter in Hr. rewrite Hsg, Hgf in Hr.
    now rewrite (get_body_val _ _ _ Hr).
  - split; [exact Hself |]. split.
    + intros r Hr. unfold call_getter in Hr. rewrite Hsg, Hgf, Hself in Hr.
      exact (get_body_val _ _ _ Hr).
    + intros x Hx. unfold update. apply String.eqb_neq in Hx. now rewrite Hx.
Qed.

Lemma replace_setter_swaps_witness :
  exists inst' ret,
    derive_property_for_field replace_witness_field = Some replace_witness_methods /\
    In replace_witness_getter replace_witness_methods /\
    m_sig replace_witness_getter = SigGet (GSlice u8_ty) /\
    In replace_witness_setter replace_witness_methods /\
    m_sig replace_witness_setter = SigSet SReplace (BIterInto u8_ty) /\
    call_setter replace_witness_setter (fun v => v) replace_witness_instance
      (ArgIter [VNum 7]) = Some (inst', ret) /\
    (ret = RetOld (replace_witness_instance (ident replace_witness_field)) /\
     (forall r, call_getter replace_witness_getter replace_witness_instance = Some r ->
        ret = RetOld (ret_val r)) /\
     inst' (ident replace_witness_field) = converted (fun v => v) (ArgIter [VNum 7]) /\
     (forall r, call_getter replace_witness_getter inst' = Some r ->
        ret_val r = converted (fun v => v) (ArgIter [VNum 7])) /\
     (forall x, x <> ident replace_witness_field -> inst' x = replace_witness_instance x)).
Proof.
  exists (update replace_witness_instance "v" (VSeq [VNum 7])),
         (RetOld (VSeq [VNum 1; VNum 2])).
  assert (Hd : derive_property_for_field replace_witness_field = Some replace_witness_methods)
    by (vm_compute; reflexivity).
  assert (Hg : In replace_witness_getter replace_witness_methods)
    by (vm_compute; left; reflexivity).
  assert (Hs : In replace_witness_setter replace_witness_methods)
    by (vm_compute; right; left; reflexivity).
  assert (Hc : call_setter replace_witness_setter (fun v => v) replace_witness_instance
                 (ArgIter [VNum 7]) =
               Some (update replace_witness_instance "v" (VSeq [VNum 7]),
                     RetOld (VSeq [VNum 1; VNum 2]))) by reflexivity.
  do 6 (split; [first [exact Hd | exact Hg | exact Hs | exact Hc | reflexivity] |]).
  exact (replace_setter_swaps replace_witness_field replace_witness_methods
           replace_witness_getter replace_witness_setter (GSlice u8_ty) (BIterInto u8_ty)
           (fun v => v) replace_witness_instance _ (ArgIter [VNum 7]) _
           Hd Hg eq_refl Hs eq_refl Hc).
Defined.

(* ------------------------------------------------------------------------- *)
(** ** The sort and the duplicate check of [implement_traits] *)


Lemma insert_by_key_perm (f : FieldDef) (l : list FieldDef) :
  Permutation (insert_by_key f l) (f :: l).
Proof.
  induction l as [| g l IH]; simpl; [reflexivity |].
  destruct (key g <=? key f)%N; [| reflexivity].
  rewrite IH. apply perm_swap.
Qed.

Lemma sort_by_key_perm (l : list FieldDef) : Permutation (sort_by_key l) l.
Proof.
  induction l as [| f l IH]; simpl; [reflexivity |].
  rewrite insert_by_key_perm. now apply perm_skip.
Qed.

Lemma insert_by_key_sorted (f : FieldDef) (l : list FieldDef) :
  Sorted key_le l -> Sorted key_le (insert_by_key f l).
Proof.
  induction 1 as [| g l Hs IH Hhd]; simpl.
  - repeat constructor.
  - destruct (key g <=? key f)%N eqn:E.
    + apply N.leb_le in E. constructor; [exact IH |].
      destruct l as [| h l]; simpl.
      * constructor. exact E.
      * inversion Hhd; subst. destruct (key h <=? key f)%N; constructor; assumption.
    + apply N.leb_gt in E. constructor; [constructor; assumption |].
      constructor. unfold key_le. lia.
Qed.

Lemma sort_by_key_sorted (l : list FieldDef) : Sorted key_le (sort_by_key l).
Proof.
  induction l as [| f l IH]; simpl; [constructor |].
  now apply insert_by_key_sorted.
Qed.

Lemma key_le_trans (a b c : FieldDef) : key_le a b -> key_le b c -> key_le a c.
Proof. unfold key_le; lia. Qed.

(** In a list sorted by ordinal, a repeated ordinal shows up in some
    adjacent pair. *)
Lemma sorted_dup_adjacent (l : list FieldDef) :
  Sorted key_le l -> ~ NoDup (map key l) -> has_same_serial_number l = true.
Proof.
  intros Hs. apply Sorted_StronglySorted in Hs; [| exact key_le_trans].
  induction Hs as [| a l Hs IH Hall]; intros Hnd.
  - exfalso. apply Hnd. constructor.
  - destruct (in_dec N.eq_dec (key a) (map key l)) as [Hin | Hnin].
    + destruct l as [| b l]; [contradiction |].
      apply in_map_iff in Hin. destruct Hin as (x & Hx & Hinx).
      inversion Hs as [| b' l' Hs' Hallb]; subst.
      inversion Hall as [| ? ? Hab _]; subst.
      assert (Hbx : (key b <= key x)%N).
      { destruct Hinx as [<- | Hinx]; [lia |].
        rewrite Forall_forall in Hallb. apply Hallb, Hinx. }
      unfold key_le in Hab. simpl. replace (key a =? key b)%N with true; [reflexivity |].
      symmetry. apply N.eqb_eq. lia.
    + assert (Hnd' : ~ NoDup (map key l)).
      { intro Hnd'. apply Hnd. simpl. constructor; assumption. }
      destruct l as [| b l]; [exfalso; apply Hnd'; constructor |].
      change (has_same_serial_number (a :: b :: l))
        with ((key a =? key b)%N || has_same_serial_number (b :: l)).
      rewrite (IH Hnd'). apply orb_true_r.
Qed.

(** Strictly increasing ordinals leave no adjacent duplicate. *)
Lemma strictly_sorted_no_dup (l : list FieldDef) :
  StronglySorted key_lt l -> has_same_serial_number l = false.
Proof.
  induction 1 as [| a l Hs IH Hall]; [reflexivity |].
  destruct l as [| b l]; [reflexivity |].
  change (has_same_serial_number (a :: b :: l))
    with ((key a =? key b)%N || has_same_serial_number (b :: l)).
  inversion Hall as [| ? ? Hab _]; subst. unfold key_lt in Hab.
  rewrite IH, orb_false_r. apply N.eqb_neq. lia.
Qed.

Lemma sorted_nodup_strict (l : list FieldDef) :
  StronglySorted key_le l -> NoDup (map key l) -> StronglySorted key_lt l.
Proof.
  induction 1 as [| a l Hs IH Hall]; intros Hnd; constructor.
  - apply IH. simpl in Hnd. now inversion Hnd.
  - simpl in Hnd. inversion Hnd as [| ? ? Hnin _]; subst.
    rewrite Forall_forall in Hall |- *. intros x Hx.
    specialize (Hall x Hx). unfold key_le in Hall. unfold key_lt.
    assert (key a <> key x) by (intro E; apply Hnin; rewrite E; now apply in_map).
    lia.
Qed.

(** Two lists with strictly increasing ordinals and the same elements are
    equal. *)
Lemma strictly_sorted_perm_eq (l1 l2 : list FieldDef) :
  StronglySorted key_lt l1 -> StronglySorted key_lt l2 -> Permutation l1 l2 -> l1 = l2.
Proof.
  intros H1. revert l2.
  induction H1 as [| a r1 Hs1 IH Hall1]; intros l2 H2 Hp.
  - symmetry. now apply Permutation_nil.
  - destruct H2 as [| b r2 Hs2 Hall2].
    + exfalso. now apply (Permutation_nil_cons (l := r1) (x := a)), Permutation_sym.
    + assert (Hab : a = b).
      { assert (Ha : In a (b :: r2)) by (apply (Permutation_in _ Hp); left; reflexivity).
        assert (Hb : In b (a :: r1))
          by (apply (Permutation_in _ (Permutation_sym Hp)); left; reflexivity).
        destruct Ha as [Ha | Ha]; [now symmetry |].
        destruct Hb as [Hb | Hb]; [exact Hb |].
        rewrite Forall_forall in Hall1, Hall2.
        specialize (Hall1 b Hb). specialize (Hall2 a Ha).
        unfold key_lt in Hall1, Hall2. lia. }
      subst b. f_equal. apply IH; [exact Hs2 |].
      exact (Permutation_cons_inv Hp).
Qed.

Lemma implement_traits_duplicate (fields l1 l2 l3 : list FieldDef) (f1 f2 : FieldDef)
    (n : N) :
  fields = (l1 ++ f1 :: l2 ++ f2 :: l3)%list ->
  ord_number f1 = Some n -> ord_number f2 = Some n ->
  implement_traits fields =
    Panic "there are at least two fields that have same serial number".
Proof.
  intros -> H1 H2. unfold implement_traits.
  assert (Hh1 : has_number f1 = true) by (unfold has_number; now rewrite H1).
  assert (Hh2 : has_number f2 = true) by (unfold has_number; now rewrite H2).
  assert (Hk1 : key f1 = n) by (unfold key; now rewrite H1).
  assert (Hk2 : key f2 = n) by (unfold key; now rewrite H2).
  assert (Hnd : ~ NoDup (map key (filter has_number (l1 ++ f1 :: l2 ++ f2 :: l3)))).
  { rewrite !filter_app. simpl. rewrite Hh1. rewrite filter_app. simpl. rewrite Hh2.
    rewrite !map_app. simpl. rewrite map_app. simpl. rewrite Hk1, Hk2.
    intro Hnd. apply NoDup_remove_2 in Hnd. apply Hnd.
    apply in_or_app. right. apply in_or_app. right. left. reflexivity. }
  remember (filter has_number (l1 ++ f1 :: l2 ++ f2 :: l3)) as ordered eqn:Hord.
  destruct ordered as [| x r]; [exfalso; apply Hnd; constructor |].
  rewrite sorted_dup_adjacent; [reflexivity | apply sort_by_key_sorted |].
  intro Hnd'. apply Hnd.
  apply (Permutation_NoDup (Permutation_map key (sort_by_key_perm (x :: r)))), Hnd'.
Qed.

Lemma synth_methods_done (fields : list FieldDef) (log : list Event) :
  (forall f, In f fields -> skip (conf f) = false -> derive_property_for_field f <> None) ->
  exists log' ms, synth_methods fields log = (log', Done ms).
Proof.
  revert log. induction fields as [| f rest IH]; intros log Hcl; simpl.
  - eauto.
  - destruct (skip (conf f)) eqn:Hskip.
    + apply IH. intros g Hg. apply Hcl. now right.
    + destruct (derive_property_for_field f) as [ms0 |] eqn:Hd.
      * destruct (IH (log ++ [EFieldMethods (ident f) ms0])%list) as (log' & ms & ->).
        { intros g Hg. apply Hcl. now right. }
        eauto.
      * exfalso. exact (Hcl f (or_introl eq_refl) Hskip Hd).
Qed.

(** C7 (counterexample): with two fields carrying ordinal [_0], the
    expansion builds the accessors of both fields before the duplicate check
    in [implement_traits] panics. *)
Lemma duplicate_ordinal_after_methods :
  exists ms1 ms2,
    derive_property dup_fields =
      ([EFieldMethods "x" ms1; EFieldMethods "y" ms2],
       Panic "there are at least two fields that have same serial number") /\
    ms1 <> [].
Proof. vm_compute. eexists. eexists. split; [reflexivity | discriminate]. Qed.

(** C7 (amended): when two distinct fields carry the same ordinal and every
    non-skipped field's accessors are synthesized without a panic (its type
    classifies and its enabled method names are identifiers), the expansion
    ends in the duplicate-ordinal panic and yields no output; the per-field
    accessors have already been built at that point. *)
Theorem duplicate_ordinal_panics (fields l1 l2 l3 : list FieldDef) (f1 f2 : FieldDef)
    (n : N) :
  fields = (l1 ++ f1 :: l2 ++ f2 :: l3)%list ->
  ord_number f1 = Some n -> ord_number f2 = Some n ->
  (forall f, In f fields -> skip (conf f) = false -> derive_property_for_field f <> None) ->
  exists log ms,
    synth_methods fields [] = (log, Done ms) /\
    derive_property fields =
      (log, Panic "there are at least two fields that have same serial number").
Proof.
  intros Hf H1 H2 Hcl.
  destruct (synth_methods_done fields [] Hcl) as (log & ms & Hs).
  exists log, ms. split; [exact Hs |].
  unfold derive_property. rewrite Hs.
  now rewrite (implement_traits_duplicate fields l1 l2 l3 f1 f2 n Hf H1 H2).
Qed.

Lemma duplicate_ordinal_panics_witness :
  dup_fields = ([] ++ ord_field "x" 0 Ascending :: [] ++ ord_field "y" 0 Ascending :: [])%list /\
  ord_number (ord_field "x" 0 Ascending) = Some 0%N /\
  ord_number (ord_field "y" 0 Ascending) = Some 0%N /\
  (forall f, In f dup_fields -> skip (conf f) = false ->
     derive_property_for_field f <> None) /\
  exists log ms,
    synth_methods dup_fields [] = (log, Done ms) /\
    derive_property dup_fields =
      (log, Panic "there are at least two fields that have same serial number").
Proof.
  assert (Hcl : forall f, In f dup_fields -> skip (conf f) = false ->
                 derive_property_for_field f <> None).
  { intros f Hf _. simpl in Hf.
    destruct Hf as [<- | [<- | []]]; simpl; discriminate. }
  split; [reflexivity |]. split; [reflexivity |]. split; [reflexivity |].
  split; [exact Hcl |].
  exact (duplicate_ordinal_panics dup_fields [] [] [] (ord_field "x" 0 Ascending)
           (ord_field "y" 0 Ascending) 0%N eq_refl eq_refl eq_refl Hcl).
Defined.

Lemma cmp_stmts_spec (partial_cmp : Val -> Val -> option comparison)
    (l : list FieldDef) (a b : Instance) :
  run_cmp_stmts partial_cmp
    (map (fun f => (ident f, is_ascending (sort_type (ord (conf f))))) l) a b =
  spec_partial_cmp partial_cmp l a b.
Proof.
  induction l as [| f l IH]; simpl; [reflexivity |].
  destruct (sort_type (ord (conf f))); simpl;
    match goal with |- context [partial_cmp ?x ?y] =>
      destruct (partial_cmp x y) as [[| |] |] end; simpl; auto.
Qed.

(** C6: for a struct with at least one ordinal field and pairwise distinct
    ordinals, the generated [partial_cmp] compares the ordinal fields in
    ascending ordinal order, swapping the operands of the [desc] fields, and
    returns the first result that is not [Some Equal], or [Some Equal]. *)
Theorem generated_partial_cmp_lexicographic
    (partial_cmp : Val -> Val -> option comparison) (fields l : list FieldDef) :
  (exists f, In f fields /\ has_number f = true) ->
  NoDup (map key (filter has_number fields)) ->
  Permutation l (filter has_number fields) ->
  StronglySorted key_lt l ->
  exists impls, implement_traits fields = Done (Some impls) /\
    forall a b : Instance,
      generated_partial_cmp partial_cmp impls a b = spec_partial_cmp partial_cmp l a b.
Proof.
  intros (f & Hin & Hhas) Hnd Hp Hsorted.
  assert (Hne : In f (filter has_number fields)) by (apply filter_In; auto).
  unfold implement_traits.
  remember (filter has_number fields) as ordered eqn:Hord.
  destruct ordered as [| x r]; [contradiction |].
  assert (Hl : sort_by_key (x :: r) = l).
  { apply strictly_sorted_perm_eq; [| exact Hsorted |].
    - apply sorted_nodup_strict.
      + apply Sorted_StronglySorted; [exact key_le_trans | apply sort_by_key_sorted].
      + exact (Permutation_NoDup
                 (Permutation_map key (Permutation_sym (sort_by_key_perm (x :: r)))) Hnd).
    - rewrite sort_by_key_perm. now apply Permutation_sym. }
  rewrite Hl, (strictly_sorted_no_dup l Hsorted).
  eexists. split; [reflexivity |].
  intros a b. unfold generated_partial_cmp. simpl. apply cmp_stmts_spec.
Qed.

Lemma generated_partial_cmp_lexicographic_witness :
  (exists f, In f mixed_fields /\ has_number f = true) /\
  NoDup (map key (filter has_number mixed_fields)) /\
  Permutation [ord_field "a" 1 Ascending; ord_field "b" 2 Descending]
              (filter has_number mixed_fields) /\
  StronglySorted key_lt [ord_field "a" 1 Ascending; ord_field "b" 2 Descending] /\
  exists impls, implement_traits mixed_fields = Done (Some impls) /\
    forall a b : Instance,
      generated_partial_cmp num_partial_cmp impls a b =
      spec_partial_cmp num_partial_cmp
        [ord_field "a" 1 Ascending; ord_field "b" 2 Descending] a b.
Proof.
  assert (H1 : exists f, In f mixed_fields /\ has_number f = true)
    by (exists (ord_field "a" 1 Ascending); simpl; auto).
  assert (H2 : NoDup (map key (filter has_number mixed_fields))).
  { simpl. constructor; [simpl; intros [H | []]; discriminate |].
    constructor; [simpl; auto | constructor]. }
  assert (H3 : Permutation [ord_field "a" 1 Ascending; ord_field "b" 2 Descending]
                 (filter has_number mixed_fields)) by (simpl; apply perm_swap).
  assert (H4 : StronglySorted key_lt
                 [ord_field "a" 1 Ascending; ord_field "b" 2 Descending]).
  { repeat constructor; unfold key_lt; simpl; lia. }
  split; [exact H1 |]. split; [exact H2 |]. split; [exact H3 |]. split; [exact H4 |].
  exact (generated_partial_cmp_lexicographic num_partial_cmp mixed_fields _ H1 H2 H3 H4).
Defined.

(* ------------------------------------------------------------------------- *)
(** ** Where the parameters of a group come from *)

Lemma is_ident_eq (p : Path) (o : string) : is_ident p o = true -> p = [o].
Proof.
  destruct p as [| x [| y p]]; simpl; try discriminate.
  intro H. apply String.eqb_eq in H. now subst.
Qed.

Lemma word_in_words_of (nested : list NestedMeta) (w : string) :
  In (NMeta (MPath [w])) nested -> In w (words_of nested).
Proof. intro H. apply in_flat_map. exists (NMeta (MPath [w])). simpl. auto. Qed.

Lemma key_in_keys_of (nested : list NestedMeta) (k v : string) :
  In (NMeta (MNameValue [k] (LStr v))) nested -> In k (keys_of nested).
Proof. intro H. apply in_flat_map. exists (NMeta (MNameValue [k] (LStr v))). simpl. auto. Qed.

Lemma collect_params_spec (nested : list NestedMeta) (pp pp' : list Path)
    (nv nv' : list (Path * string)) :
  collect_params nested pp nv = Ok (pp', nv') ->
  (forall p, In p pp' -> In p pp \/ In (NMeta (MPath p)) nested) /\
  (forall p, In p pp -> In p pp') /\
  (forall p, In (NMeta (MPath p)) nested -> In p pp') /\
  (forall p v, In (p, v) nv' -> In (p, v) nv \/ In (NMeta (MNameValue p (LStr v))) nested).
Proof.
  revert pp nv. induction nested as [| x rest IH]; intros pp nv H; simpl in H.
  - injection H as <- <-. repeat split; auto; intros; contradiction.
  - destruct x as [[p | p l | p [str | n | b]] | l]; try discriminate.
    + destruct (existsb (path_eqb p) pp); [discriminate |].
      destruct (IH _ _ H) as (H1 & H2 & H3 & H4). repeat split.
      * intros q Hq. destruct (H1 q Hq) as [Hq' | Hq'].
        -- apply in_app_or in Hq'. destruct Hq' as [Hq' | [<- | []]]; [now left |].
           right. now left.
        -- right. now right.
      * intros q Hq. apply H2. apply in_or_app. now left.
      * intros q [Hq | Hq].
        -- injection Hq as ->. apply H2. apply in_or_app. right. now left.
        -- now apply H3.
      * intros q v Hq. destruct (H4 q v Hq) as [Hq' | Hq']; [now left | right; now right].
    + destruct (existsb (fun kv => path_eqb p (fst kv)) nv); [discriminate |].
      destruct (IH _ _ H) as (H1 & H2 & H3 & H4). repeat split.
      * intros q Hq. destruct (H1 q Hq) as [Hq' | Hq']; [now left | right; now right].
      * exact H2.
      * intros q [Hq | Hq]; [discriminate | now apply H3].
      * intros q v Hq. destruct (H4 q v Hq) as [Hq' | Hq'].
        -- apply in_app_or in Hq'. destruct Hq' as [Hq' | [Hq' | []]]; [now left |].
           injection Hq' as -> ->. right. now left.
        -- right. now right.
Qed.

Lemma find_group_spec (p : Path) (k : nat) (opts : list (list string)) (i : nat)
    (opt : string) :
  find_group p k opts = Some (i, opt) ->
  is_ident p opt = true /\ k <= i /\ In opt (nth (i - k) opts []).
Proof.
  revert k. induction opts as [| group rest IH]; intros k H; simpl in H; [discriminate |].
  destruct (find (is_ident p) group) as [o |] eqn:E.
  - injection H as <- <-. apply find_some in E. destruct E as [Hin Hid].
    rewrite Nat.sub_diag. simpl. auto.
  - destruct (IH (S k) H) as (Hid & Hle & Hin). split; [exact Hid |]. split; [lia |].
    replace (i - k) with (S (i - S k)) by lia. exact Hin.
Qed.

Lemma replace_nth_length {A} (l : list A) (j : nat) (x : A) :
  length (replace_nth l j x) = length l.
Proof.
  revert j. induction l as [| y l IH]; intros [| j]; simpl; auto.
Qed.

Lemma nth_replace_nth {A} (l : list A) (i j : nat) (x d : A) :
  nth i (replace_nth l j x) d = nth i l d \/
  (i = j /\ j < length l /\ nth i (replace_nth l j x) d = x).
Proof.
  revert i j. induction l as [| y l IH]; intros i j; simpl; [now left |].
  destruct j as [| j], i as [| i]; simpl; auto.
  - right. repeat split; lia.
  - destruct (IH i j) as [H | (-> & Hlt & H)]; [now left | right; repeat split; auto; lia].
Qed.

Lemma nth_replace_nth_eq {A} (l : list A) (i : nat) (x d : A) :
  i < length l -> nth i (replace_nth l i x) d = x.
Proof.
  revert i. induction l as [| y l IH]; intros i Hi; simpl in Hi; [lia |].
  destruct i as [| i]; simpl; [reflexivity |]. apply IH. lia.
Qed.

Lemma path_loop_origin (ps : list Path) (opts : list (list string))
    (res r : list (option string)) (i : nat) (o : string) :
  check_path_params_loop ps opts res = Ok r -> nth i r None = Some o ->
  nth i res None = Some o \/ exists p, In p ps /\ find_group p 0 opts = Some (i, o).
Proof.
  revert res. induction ps as [| p ps IH]; intros res H Hi; simpl in H.
  - injection H as <-. now left.
  - destruct (find_group p 0 opts) as [[j opt] |] eqn:Hf; [| discriminate].
    destruct (nth j res None) eqn:Hj; [discriminate |].
    destruct (IH _ H Hi) as [H' | (q & Hq & Hfq)].
    + destruct (nth_replace_nth res i j (Some opt) None) as [E | (-> & _ & E)].
      * left. now rewrite <- E.
      * right. exists p. split; [now left |]. rewrite Hf. congruence.
    + right. exists q. split; [now right | exact Hfq].
Qed.

Lemma path_loop_persist (ps : list Path) (opts : list (list string))
    (res r : list (option string)) (i : nat) (o : string) :
  check_path_params_loop ps opts res = Ok r -> nth i res None = Some o ->
  nth i r None = Some o.
Proof.
  revert res. induction ps as [| p ps IH]; intros res H Hi; simpl in H.
  - now injection H as <-.
  - destruct (find_group p 0 opts) as [[j opt] |]; [| discriminate].
    destruct (nth j res None) eqn:Hj; [discriminate |].
    apply (IH _ H).
    destruct (nth_replace_nth res i j (Some opt) None) as [E | (-> & _ & E)].
    + now rewrite E.
    + congruence.
Qed.

Lemma path_loop_found (ps : list Path) (opts : list (list string))
    (res r : list (option string)) (p : Path) (i : nat) (opt : string) :
  check_path_params_loop ps opts res = Ok r -> In p ps ->
  find_group p 0 opts = Some (i, opt) -> i < length res -> nth i r None <> None.
Proof.
  revert res. induction ps as [| q ps IH]; intros res H Hin Hf Hlt; [contradiction |].
  simpl in H.
  destruct (find_group q 0 opts) as [[j o] |] eqn:Hq; [| discriminate].
  destruct (nth j res None) eqn:Hj; [discriminate |].
  destruct Hin as [<- | Hin].
  - rewrite Hf in Hq. injection Hq as <- <-.
    assert (E : nth i (replace_nth res i (Some opt)) None = Some opt)
      by (apply nth_replace_nth_eq; exact Hlt).
    rewrite (path_loop_persist _ _ _ _ _ _ H E). discriminate.
  - apply (IH _ H Hin Hf). now rewrite replace_nth_length.
Qed.

Lemma check_path_params_origin (ps : list Path) (opts : list (list string))
    (r : list (option string)) (i : nat) (o : string) :
  check_path_params ps opts = Ok r -> nth i r None = Some o ->
  exists p, In p ps /\ p = [o] /\ In o (nth i opts []).
Proof.
  intros H Hi. destruct (path_loop_origin _ _ _ _ _ _ H Hi) as [E | (p & Hp & Hf)].
  - rewrite nth_repeat in E. discriminate.
  - destruct (find_group_spec _ _ _ _ _ Hf) as (Hid & _ & Hin).
    exists p. rewrite Nat.sub_0_r in Hin. split; [exact Hp |].
    split; [now apply is_ident_eq | exact Hin].
Qed.

Lemma find_namevalue_ident (n : Path) (value : string)
    (opts : list (string * option (list string))) (k : string) :
  find_namevalue n value opts = Some k -> is_ident n k = true.
Proof.
  induction opts as [| [k' g] rest IH]; simpl; [discriminate |].
  destruct (is_ident n k') eqn:E; [| exact IH].
  destruct g as [group |].
  - destruct (existsb (String.eqb value) group); [| exact IH].
    intro H. injection H as <-. exact E.
  - intro H. injection H as <-. exact E.
Qed.

Lemma check_namevalue_origin (params : list (Path * string))
    (opts : list (string * option (list string))) (nv : list (string * string))
    (k v : string) :
  check_namevalue_params params opts = Ok nv -> lookup k nv = Some v ->
  exists n, In (n, v) params /\ n = [k].
Proof.
  revert nv. induction params as [| [n value] rest IH]; intros nv H Hl; simpl in H.
  - injection H as <-. discriminate.
  - destruct (find_namevalue n value opts) as [k' |] eqn:Hf; [| discriminate].
    destruct (check_namevalue_params rest opts) as [r |] eqn:Hr; simpl in H;
      [| discriminate].
    injection H as <-. unfold map_insert in Hl. simpl in Hl.
    destruct (String.eqb k k') eqn:Ek.
    + apply String.eqb_eq in Ek. subst k'. injection Hl as <-.
      exists n. split; [now left |]. apply is_ident_eq.
      exact (find_namevalue_ident _ _ _ _ Hf).
    + destruct (IH r eq_refl Hl) as (n' & Hin & Hn). exists n'. split; [now right | exact Hn].
Qed.

Lemma words_of_in (nested : list NestedMeta) (w : string) :
  In w (words_of nested) -> In (NMeta (MPath [w])) nested.
Proof.
  intro H. apply in_flat_map in H. destruct H as (x & Hx & Hw).
  destruct x as [[[| a [| b p]] | p l | p lit] | l]; simpl in Hw; try contradiction.
  destruct Hw as [<- | []]. exact Hx.
Qed.

Lemma word_unmentioned_none (nested : list NestedMeta) (pp : list Path)
    (nv : list (Path * string)) (opts : list (list string))
    (paths : list (option string)) (i : nat) :
  collect_params nested [] [] = Ok (pp, nv) ->
  check_path_params pp opts = Ok paths ->
  unmentioned (nth i opts []) (words_of nested) -> nth i paths None = None.
Proof.
  intros Hc Hp Hu. destruct (nth i paths None) as [o |] eqn:E; [| reflexivity].
  exfalso. destruct (check_path_params_origin _ _ _ _ _ Hp E) as (p & Hin & -> & Ho).
  destruct (collect_params_spec _ _ _ _ _ Hc) as (H1 & _).
  destruct (H1 _ Hin) as [[] | Hn].
  exact (Hu o Ho (word_in_words_of _ _ Hn)).
Qed.

Lemma key_unmentioned_none (nested : list NestedMeta) (pp : list Path)
    (nv : list (Path * string)) (opts : list (string * option (list string)))
    (nvs : list (string * string)) (k : string) :
  collect_params nested [] [] = Ok (pp, nv) ->
  check_namevalue_params nv opts = Ok nvs ->
  ~ In k (keys_of nested) -> lookup k nvs = None.
Proof.
  intros Hc Hn Hk. destruct (lookup k nvs) as [v |] eqn:E; [| reflexivity].
  exfalso. destruct (check_namevalue_origin _ _ _ _ _ Hn E) as (n & Hin & ->).
  destruct (collect_params_spec _ _ _ _ _ Hc) as (_ & _ & _ & H4).
  destruct (H4 _ _ Hin) as [[] | H]. exact (Hk (key_in_keys_of _ _ _ H)).
Qed.

Lemma name_unmentioned_none (nested : list NestedMeta) (pp : list Path)
    (nv : list (Path * string)) (opts : list (string * option (list string)))
    (nvs : list (string * string)) :
  collect_params nested [] [] = Ok (pp, nv) ->
  check_namevalue_params nv opts = Ok nvs ->
  unmentioned ["name"; "prefix"; "suffix"] (keys_of nested) ->
  name_parse_from_input nvs = Ok None.
Proof.
  intros Hc Hn Hu. unfold name_parse_from_input.
  rewrite (key_unmentioned_none _ _ _ _ _ "name" Hc Hn) by (apply Hu; simpl; auto).
  rewrite (key_unmentioned_none _ _ _ _ _ "prefix" Hc Hn) by (apply Hu; simpl; auto).
  rewrite (key_unmentioned_none _ _ _ _ _ "suffix" Hc Hn) by (apply Hu; simpl; auto).
  reflexivity.
Qed.

Lemma strip_word_found (nested : list NestedMeta) (pp : list Path)
    (nv : list (Path * string)) (paths : list (option string)) :
  collect_params nested [] [] = Ok (pp, nv) ->
  check_path_params pp [VISIBILITY_OPTIONS; STRIP_OPTION] = Ok paths ->
  (nth 1 paths None <> None <-> In "strip_option" (words_of nested)).
Proof.
  intros Hc Hp. destruct (collect_params_spec _ _ _ _ _ Hc) as (H1 & _ & H3 & _).
  split.
  - intro Hs. destruct (nth 1 paths None) as [o |] eqn:E; [| contradiction].
    destruct (check_path_params_origin _ _ _ _ _ Hp E) as (p & Hin & -> & Ho).
    simpl in Ho. destruct Ho as [<- | []].
    destruct (H1 _ Hin) as [[] | Hn]. exact (word_in_words_of _ _ Hn).
  - intro Hw. apply words_of_in, H3 in Hw.
    apply (path_loop_found _ _ _ _ _ 1 "strip_option" Hp Hw); [reflexivity | simpl; lia].
Qed.

Lemma ord_loop_spec (ps : list Path) (opts : list string) (pt : PropertyType)
    (st st' : option string) (num num' : option N) :
  ord_params_loop ps opts pt st num = Ok (st', num') ->
  (forall o, st' = Some o -> st = Some o \/ (In [o] ps /\ In o opts)) /\
  (pt <> PField -> num = None -> num' = None) /\
  (num <> None -> num' <> None).
Proof.
  revert st num. induction ps as [| p ps IH]; intros st num H; simpl in H.
  - injection H as <- <-. auto.
  - destruct (get_ident p) as [s |] eqn:Hs; [| discriminate].
    assert (Hp : p = [s]) by (destruct p as [| x [| y p]]; simpl in Hs; congruence).
    destruct (existsb (String.eqb s) opts) eqn:Ex.
    + destruct st as [x |]; [discriminate |].
      destruct (IH _ _ H) as (H1 & H2 & H3). repeat split; auto.
      intros o Ho. destruct (H1 o Ho) as [Hf | (Hin & Hino)].
      * right. apply find_some in Hf. destruct Hf as [Hin Heq].
        apply String.eqb_eq in Heq. subst. split; [now left | exact Hin].
      * right. split; [now right | exact Hino].
    + destruct s as [| a s]; [discriminate |].
      destruct a as [b0 b1 b2 b3 b4 b5 b6 b7];
        destruct b0, b1, b2, b3, b4, b5, b6, b7; try discriminate.
      destruct (negb (property_type_eqb pt PField)) eqn:Ept; [discriminate |].
      destruct (parse_usize s) as [n |]; [| discriminate].
      destruct num as [x |]; [discriminate |].
      destruct (IH _ _ H) as (H1 & H2 & H3). repeat split.
      * intros o Ho. destruct (H1 o Ho) as [Hf | (Hin & Hino)]; [now left |].
        right. split; [now right | exact Hino].
      * intro Hpt. destruct pt; simpl in Ept; try discriminate. contradiction.
      * intros _. apply H3. discriminate.
Qed.

Lemma ord_parse_spec (ps : list Path) (opts : list string) (pt : PropertyType)
    (st : option string) (num : option N) :
  ord_parse_from_path_params ps opts pt = Ok (st, num) ->
  (forall o, st = Some o -> In [o] ps /\ In o opts) /\
  (pt = PField -> num <> None) /\
  (pt <> PField -> num = None).
Proof.
  unfold ord_parse_from_path_params. intro H.
  destruct (ord_params_loop ps opts pt None None) as [[st0 num0] |] eqn:E;
    cbn [bind] in H; [| discriminate].
  destruct (ord_loop_spec _ _ _ _ _ _ _ E) as (H1 & H2 & _).
  destruct pt; simpl in H; destruct num0; try discriminate; injection H as <- <-;
    (split; [intros o Ho; destruct (H1 o Ho) as [Hf | Hx]; [discriminate | exact Hx] |]);
    split; intro; try discriminate; try congruence; apply H2; auto.
Qed.

(** C3 (code_bug): a container annotated [set(strip_option)] passes
    [strip_option = true] down to its fields, and a field annotation
    [set(public)], which does not mention [strip_option], turns it off:
    the [set] arm of [apply_attrs] assigns [strip_option] unconditionally
    instead of only when the group lists it. *)
Lemma set_group_resets_strip_option :
  match parse_attrs FieldConf_default
          [{| attr_outer := true;
              attr_meta := Some (MList ["property"]
                                   [NMeta (MList ["set"] [NMeta (MPath ["strip_option"])])]) |}]
          PContainer with
  | Ok container =>
      strip_option (set container) = true /\
      match parse_attrs container
              [{| attr_outer := true;
                  attr_meta := Some (MList ["property"]
                                       [NMeta (MList ["set"] [NMeta (MPath ["public"])])]) |}]
              PField with
      | Ok field => strip_option (set field) = false /\ set_vis (set field) = Public
      | Err _ => False
      end
  | Err _ => False
  end.
Proof. vm_compute. auto. Qed.

(** A successfully applied attribute group changes only the sub-fields it
    names, except that a [set(...)] group always sets [strip_option] to
    whether it lists [strip_option], and an [ord(...)] group always leaves
    an ordinal at field scope and none at crate or container scope. *)
Theorem apply_attrs_group_effect (c c' : FieldConf) (m : Meta) (pt : PropertyType) :
  apply_attrs c m pt = Ok c' -> group_effect m pt c c'.
Proof.
  intro H. destruct m as [p | p nested | p lit]; simpl in H.
  - destruct (is_ident p SKIP); [now injection H as <- | discriminate].
  - destruct (collect_params nested [] []) as [[pp nv] |] eqn:Hc;
      cbn [bind] in H; [| discriminate].
    destruct (andb _ _); [discriminate |].
    revert H. unfold group_effect.
    destruct (get_ident p) as [attr |]; [| discriminate]. intro H.
    destruct (String.eqb attr "get").
    + bind_step Ep. bind_step En. bind_step Ev. bind_step Enm. bind_step Et.
      injection H as <-. simpl. repeat split.
      * intro Hu. rewrite (word_unmentioned_none _ _ _ _ _ 0 Hc Ep Hu) in Ev.
        injection Ev as <-. destruct a2, a3; reflexivity.
      * intro Hu. rewrite (name_unmentioned_none _ _ _ _ _ Hc En Hu) in Enm.
        injection Enm as <-. destruct a1, a3; reflexivity.
      * intro Hu. unfold get_type_parse_from_input in Et.
        rewrite (key_unmentioned_none _ _ _ _ _ "type" Hc En Hu) in Et.
        injection Et as <-. destruct a1, a2; reflexivity.
    + destruct (String.eqb attr "set").
      * bind_step Ep. bind_step En. bind_step Ev. bind_step Enm. bind_step Et.
        injection H as <-. simpl. repeat split.
        -- intro Hu. rewrite (word_unmentioned_none _ _ _ _ _ 0 Hc Ep Hu) in Ev.
           injection Ev as <-. destruct a2, a3; reflexivity.
        -- intro Hu. rewrite (name_unmentioned_none _ _ _ _ _ Hc En Hu) in Enm.
           injection Enm as <-. destruct a1, a3; reflexivity.
        -- intro Hu. unfold set_type_parse_from_input in Et.
           rewrite (key_unmentioned_none _ _ _ _ _ "type" Hc En Hu) in Et.
           injection Et as <-. destruct a1, a2; reflexivity.
        -- intro Hs. apply (strip_word_found _ _ _ _ Hc Ep).
           destruct (nth 1 a None); [discriminate | discriminate Hs].
        -- intro Hw. apply (strip_word_found _ _ _ _ Hc Ep) in Hw.
           destruct (nth 1 a None); [reflexivity | contradiction].
      * destruct (String.eqb attr "mut").
        -- bind_step Ep. bind_step En. bind_step Ev. bind_step Enm.
           injection H as <-. simpl. repeat split.
           ++ intro Hu. rewrite (word_unmentioned_none _ _ _ _ _ 0 Hc Ep Hu) in Ev.
              injection Ev as <-. destruct a2; reflexivity.
           ++ intro Hu. rewrite (name_unmentioned_none _ _ _ _ _ Hc En Hu) in Enm.
              injection Enm as <-. destruct a1; reflexivity.
        -- destruct (String.eqb attr "ord"); [| discriminate].
           bind_step Eo. destruct a as [sto numo]. bind_step Est.
           injection H as <-. simpl.
           destruct (ord_parse_spec _ _ _ _ _ Eo) as (H1 & H2 & H3).
           repeat split; auto.
           intro Hu. destruct sto as [o |].
           ++ exfalso. destruct (H1 o eq_refl) as [Hin Ho].
              destruct (collect_params_spec _ _ _ _ _ Hc) as (Hpp & _).
              destruct (Hpp _ Hin) as [[] | Hn].
              exact (Hu o Ho (word_in_words_of _ _ Hn)).
           ++ injection Est as <-. reflexivity.
  - discriminate.
Qed.

Lemma apply_attrs_group_effect_witness :
  apply_attrs FieldConf_default (MList ["set"] [NMeta (MPath ["public"])]) PField =
    Ok (set_set FieldConf_default
          {| set_vis := Public; set_name := Format "set_" ""; set_typ := SRef;
             strip_option := false |}) /\
  group_effect (MList ["set"] [NMeta (MPath ["public"])]) PField FieldConf_default
    (set_set FieldConf_default
       {| set_vis := Public; set_name := Format "set_" ""; set_typ := SRef;
          strip_option := false |}).
Proof.
  assert (H : apply_attrs FieldConf_default (MList ["set"] [NMeta (MPath ["public"])]) PField =
    Ok (set_set FieldConf_default
          {| set_vis := Public; set_name := Format "set_" ""; set_typ := SRef;
             strip_option := false |})) by reflexivity.
  split; [exact H |].
  exact (apply_attrs_group_effect _ _ _ _ H).
Defined.

(* ------------------------------------------------------------------------- *)
(** * Further properties of the parser *)

Lemma path_loop_app (l1 l2 : list Path) (opts : list (list string))
    (res : list (option string)) :
  check_path_params_loop (l1 ++ l2) opts res =
  bind (check_path_params_loop l1 opts res) (fun r => check_path_params_loop l2 opts r).
Proof.
  revert res. induction l1 as [| p l1 IH]; intro res; simpl; [reflexivity |].
  destruct (find_group p 0 opts) as [[i o] |]; [| reflexivity].
  destruct (nth i res None); [reflexivity | apply IH].
Qed.

Lemma path_loop_length (ps : list Path) (opts : list (list string))
    (res r : list (option string)) :
  check_path_params_loop ps opts res = Ok r -> length r = length res.
Proof.
  revert res. induction ps as [| p ps IH]; intros res H; simpl in H.
  - now injection H as <-.
  - destruct (find_group p 0 opts) as [[i o] |]; [| discriminate].
    destruct (nth i res None); [discriminate |].
    rewrite (IH _ H). apply replace_nth_length.
Qed.

(** [check_path_params]: two words that fall into the same option group
    (for instance [public] and [private]) are refused, wherever they occur
    in the list. *)
Theorem check_path_params_same_group_twice (l1 l2 l3 : list Path) (p1 p2 : Path)
    (opts : list (list string)) (i : nat) (o1 o2 : string) :
  find_group p1 0 opts = Some (i, o1) -> find_group p2 0 opts = Some (i, o2) ->
  forall r, check_path_params (l1 ++ p1 :: l2 ++ p2 :: l3) opts <> Ok r.
Proof.
  intros H1 H2 r H. unfold check_path_params in H.
  rewrite path_loop_app in H.
  destruct (check_path_params_loop l1 opts _) as [r1 |] eqn:E1; cbn [bind] in H;
    [| discriminate].
  cbn [check_path_params_loop] in H. rewrite H1 in H.
  destruct (nth i r1 None) eqn:Hi; [discriminate |].
  rewrite path_loop_app in H.
  destruct (check_path_params_loop l2 opts _) as [r2 |] eqn:E2; cbn [bind] in H;
    [| discriminate].
  assert (Hlt : i < length r1).
  { rewrite (path_loop_length _ _ _ _ E1), repeat_length.
    destruct (find_group_spec _ _ _ _ _ H1) as (_ & _ & Hin).
    rewrite Nat.sub_0_r in Hin.
    destruct (Nat.lt_ge_cases i (length opts)) as [Hl | Hge]; [exact Hl |].
    rewrite nth_overflow in Hin by exact Hge. contradiction. }
  assert (E : nth i r2 None = Some o1).
  { apply (path_loop_persist _ _ _ _ _ _ E2). apply nth_replace_nth_eq. exact Hlt. }
  cbn [check_path_params_loop] in H. rewrite H2, E in H. discriminate.
Qed.

Lemma check_path_params_same_group_twice_witness :
  find_group ["public"] 0 [VISIBILITY_OPTIONS] = Some (0, "public") /\
  find_group ["private"] 0 [VISIBILITY_OPTIONS] = Some (0, "private") /\
  check_path_params ([] ++ ["public"] :: [] ++ ["private"] :: [])
    [VISIBILITY_OPTIONS] <> Ok [Some "public"].
Proof.
  split; [reflexivity |]. split; [reflexivity |].
  exact (check_path_params_same_group_twice [] [] [] ["public"] ["private"]
           [VISIBILITY_OPTIONS] 0 "public" "private" eq_refl eq_refl [Some "public"]).
Defined.

Lemma collect_params_nv_complete (nested : list NestedMeta) (pp pp' : list Path)
    (nv nv' : list (Path * string)) (p : Path) (v : string) :
  collect_params nested pp nv = Ok (pp', nv') ->
  In (NMeta (MNameValue p (LStr v))) nested \/ In (p, v) nv -> In (p, v) nv'.
Proof.
  revert pp nv. induction nested as [| x rest IH]; intros pp nv H Hin; simpl in H.
  - injection H as <- <-. destruct Hin as [[] | Hin]; exact Hin.
  - destruct x as [[q | q l | q [str | n | b]] | l]; try discriminate.
    + destruct (existsb (path_eqb q) pp); [discriminate |].
      apply (IH _ _ H). destruct Hin as [[Hx | Hx] | Hx];
        [discriminate | now left | now right].
    + destruct (existsb (fun kv => path_eqb q (fst kv)) nv); [discriminate |].
      apply (IH _ _ H). destruct Hin as [[Hx | Hx] | Hx].
      * injection Hx as -> ->. right. apply in_or_app. right. now left.
      * now left.
      * right. apply in_or_app. now left.
Qed.

Lemma check_namevalue_key_found (params : list (Path * string))
    (opts : list (string * option (list string))) (nvs : list (string * string))
    (k v : string) :
  check_namevalue_params params opts = Ok nvs -> In ([k], v) params ->
  lookup k nvs <> None.
Proof.
  revert nvs. induction params as [| [n value] rest IH]; intros nvs H Hin;
    [contradiction |].
  simpl in H.
  destruct (find_namevalue n value opts) as [k' |] eqn:Hf; [| discriminate].
  destruct (check_namevalue_params rest opts) as [r |] eqn:Hr; cbn [bind] in H;
    [| discriminate].
  injection H as <-. unfold map_insert. simpl.
  destruct (String.eqb k k') eqn:Ek; [discriminate |].
  destruct Hin as [Hx | Hx].
  - injection Hx as -> ->. pose proof (find_namevalue_ident _ _ _ _ Hf) as Hid.
    simpl in Hid. congruence.
  - exact (IH r eq_refl Hx).
Qed.

Lemma check_namevalue_unknown_fails (params : list (Path * string))
    (opts : list (string * option (list string))) (n : Path) (v : string) :
  In (n, v) params -> find_namevalue n v opts = None ->
  forall nvs, check_namevalue_params params opts <> Ok nvs.
Proof.
  induction params as [| [n' value] rest IH]; intros Hin Hf nvs H; [contradiction |].
  simpl in H. destruct Hin as [Hx | Hx].
  - injection Hx as -> ->. rewrite Hf in H. discriminate.
  - destruct (find_namevalue n' value opts); [| discriminate].
    destruct (check_namevalue_params rest opts) as [r |] eqn:Hr; cbn [bind] in H;
      [| discriminate].
    exact (IH Hx Hf r eq_refl).
Qed.

Lemma name_conflict_err (nv : list (Path * string))
    (opts : list (string * option (list string))) (nvs : list (string * string))
    (vn va aff : string) :
  check_namevalue_params nv opts = Ok nvs -> In (["name"], vn) nv ->
  In ([aff], va) nv -> In aff ["prefix"; "suffix"] ->
  exists m, name_parse_from_input nvs = Err m.
Proof.
  intros H Hn Hx Ha.
  pose proof (check_namevalue_key_found _ _ _ _ _ H Hn) as Ln.
  pose proof (check_namevalue_key_found _ _ _ _ _ H Hx) as Lx.
  unfold name_parse_from_input.
  destruct (lookup "name" nvs) as [x |]; [| contradiction].
  destruct Ha as [<- | [<- | []]];
    destruct (lookup "prefix" nvs), (lookup "suffix" nvs); try contradiction;
    eexists; reflexivity.
Qed.

(** [MethodNameConf::parse_from_input], reached from [apply_attrs]: a
    [get], [set] or [mut] group that gives [name] together with [prefix] or
    [suffix] is refused. *)
Theorem name_with_affix_rejected (c c' : FieldConf) (grp aff vn va : string)
    (nested : list NestedMeta) (pt : PropertyType) :
  In grp ["get"; "set"; "mut"] -> In aff ["prefix"; "suffix"] ->
  In (NMeta (MNameValue ["name"] (LStr vn))) nested ->
  In (NMeta (MNameValue [aff] (LStr va))) nested ->
  apply_attrs c (MList [grp] nested) pt <> Ok c'.
Proof.
  intros Hg Ha Hn Hx H. simpl in H.
  destruct (collect_params nested [] []) as [[pp nv] |] eqn:Hc; cbn [bind] in H;
    [| discriminate].
  pose proof (collect_params_nv_complete _ _ _ _ _ _ _ Hc (or_introl Hn)) as Hnv.
  pose proof (collect_params_nv_complete _ _ _ _ _ _ _ Hc (or_introl Hx)) as Hxv.
  destruct (andb _ _); [discriminate |].
  destruct Hg as [<- | [<- | [<- | []]]]; simpl in H;
    bind_step Ep; bind_step En; bind_step Ev;
    destruct (name_conflict_err _ _ _ _ _ _ En Hnv Hxv Ha) as [m Hm];
    rewrite Hm in H; discriminate.
Qed.

Lemma name_with_affix_rejected_witness :
  apply_attrs FieldConf_default
    (MList ["get"] [NMeta (MNameValue ["name"] (LStr "x"));
                    NMeta (MNameValue ["prefix"] (LStr "y"))]) PField
    <> Ok FieldConf_default.
Proof.
  apply (name_with_affix_rejected FieldConf_default FieldConf_default "get" "prefix"
           "x" "y"); simpl; auto.
Defined.

Lemma existsb_eqb_not_in (v : string) (l : list string) :
  ~ In v l -> existsb (String.eqb v) l = false.
Proof.
  induction l as [| a l IH]; intro Hv; simpl; [reflexivity |].
  destruct (String.eqb_spec v a) as [-> | Hne]; [exfalso; apply Hv; now left |].
  apply IH. intro H. apply Hv. now right.
Qed.

(** [check_namevalue_params], reached from [apply_attrs]: a [type] value
    outside the choices of the group ([auto], [ref], [copy], [clone] for
    [get]; [ref], [own], [none], [replace] for [set]) is refused, and so is
    any [type] in a [mut] group. *)
Theorem type_value_outside_choices_rejected (c c' : FieldConf) (grp v : string)
    (nested : list NestedMeta) (pt : PropertyType) :
  In (NMeta (MNameValue ["type"] (LStr v))) nested ->
  (grp = "get" /\ ~ In v ["auto"; "ref"; "copy"; "clone"]) \/
  (grp = "set" /\ ~ In v ["ref"; "own"; "none"; "replace"]) \/ grp = "mut" ->
  apply_attrs c (MList [grp] nested) pt <> Ok c'.
Proof.
  intros Hin Hg H. simpl in H.
  destruct (collect_params nested [] []) as [[pp nv] |] eqn:Hc; cbn [bind] in H;
    [| discriminate].
  pose proof (collect_params_nv_complete _ _ _ _ _ _ _ Hc (or_introl Hin)) as Hnv.
  destruct (andb _ _); [discriminate |].
  destruct Hg as [[-> Hv] | [[-> Hv] | ->]]; simpl in H; bind_step Ep;
    match type of H with
    | bind (check_namevalue_params _ ?opts) _ = Ok _ =>
        destruct (check_namevalue_params nv opts) as [nvs |] eqn:En;
          [| discriminate];
        refine (check_namevalue_unknown_fails _ opts _ _ Hnv _ nvs En)
    end; cbn - [existsb];
    try rewrite (existsb_eqb_not_in _ _ Hv); reflexivity.
Qed.

Lemma type_value_outside_choices_rejected_witness :
  apply_attrs FieldConf_default
    (MList ["set"] [NMeta (MNameValue ["type"] (LStr "copy"))]) PField
    <> Ok FieldConf_default.
Proof.
  apply (type_value_outside_choices_rejected FieldConf_default FieldConf_default
           "set" "copy"); simpl; [auto |].
  right. left. split; [reflexivity | simpl; intuition discriminate].
Defined.

(** [parse_attrs] passes over inner attributes and over outer attributes
    that parse as a meta whose path is not [property]; but it parses every
    outer attribute as a meta before looking at its path, so an outer
    attribute that does not parse as a meta makes it fail, whatever its
    path. *)
Theorem parse_attrs_skips_foreign (c : FieldConf) (a1 a2 : list Attribute)
    (pt : PropertyType) :
  Forall (fun a => attr_outer a = false \/
                   exists m, attr_meta a = Some m /\
                             is_ident (meta_path m) ATTR_NAME = false) a1 ->
  parse_attrs c (a1 ++ a2) pt = parse_attrs c a2 pt /\
  (forall a, attr_outer a = true -> attr_meta a = None ->
     parse_attrs c (a1 ++ a :: a2) pt = Err "failed to parse the attributes").
Proof.
  intro Hf. induction Hf as [| a a1 Ha Hf IH].
  - split; [reflexivity |]. intros a Ho Hm. simpl. now rewrite Ho, Hm.
  - destruct IH as [IH1 IH2]. simpl.
    destruct Ha as [-> | (m & Hm & Hp)]; [split; [exact IH1 | exact IH2] |].
    destruct (attr_outer a); [| split; [exact IH1 | exact IH2]].
    rewrite Hm. destruct m as [p | p nested | p lit]; simpl in Hp; rewrite Hp;
      split; [exact IH1 | exact IH2 | exact IH1 | exact IH2 | exact IH1 | exact IH2].
Qed.

Lemma parse_attrs_skips_foreign_witness :
  parse_attrs FieldConf_default
    ([{| attr_outer := false; attr_meta := Some (MPath ["property"]) |};
      {| attr_outer := true;
         attr_meta := Some (MList ["derive"] [NMeta (MPath ["Debug"])]) |}] ++
     [{| attr_outer := true;
         attr_meta := Some (MList ["property"] [NMeta (MPath ["skip"])]) |}]) PField =
  parse_attrs FieldConf_default
    [{| attr_outer := true;
        attr_meta := Some (MList ["property"] [NMeta (MPath ["skip"])]) |}] PField /\
  (forall a, attr_outer a = true -> attr_meta a = None ->
     parse_attrs FieldConf_default
       ([{| attr_outer := false; attr_meta := Some (MPath ["property"]) |};
         {| attr_outer := true;
            attr_meta := Some (MList ["derive"] [NMeta (MPath ["Debug"])]) |}] ++
        a :: [{| attr_outer := true;
                 attr_meta := Some (MList ["property"] [NMeta (MPath ["skip"])]) |}])
       PField = Err "failed to parse the attributes").
Proof.
  apply parse_attrs_skips_foreign.
  apply Forall_cons; [now left |]. apply Forall_cons; [| apply Forall_nil]. right.
  exists (MList ["derive"] [NMeta (MPath ["Debug"])]). split; reflexivity.
Defined.

(** What one [apply_attrs] preserves: it can turn [skip] on but never off,
    and outside the field scope it never sets an ordinal. *)
Lemma apply_attrs_frame (c c' : FieldConf) (m : Meta) (pt : PropertyType) :
  apply_attrs c m pt = Ok c' ->
  (skip c = true -> skip c' = true) /\
  (pt <> PField -> number (ord c) = None -> number (ord c') = None).
Proof.
  intro H. destruct m as [p | p nested | p lit]; simpl in H.
  - destruct (is_ident p SKIP); [injection H as <-; simpl; auto | discriminate].
  - destruct (collect_params nested [] []) as [[pp nv] |] eqn:Hc; cbn [bind] in H;
      [| discriminate].
    destruct (andb _ _); [discriminate |].
    destruct (get_ident p) as [attr |]; [| discriminate].
    destruct (String.eqb attr "get").
    { bind_step Ep. bind_step En. bind_step Ev. bind_step Enm. bind_step Et.
      injection H as <-. simpl. auto. }
    destruct (String.eqb attr "set").
    { bind_step Ep. bind_step En. bind_step Ev. bind_step Enm. bind_step Et.
      injection H as <-. simpl. auto. }
    destruct (String.eqb attr "mut").
    { bind_step Ep. bind_step En. bind_step Ev. bind_step Enm.
      injection H as <-. simpl. auto. }
    destruct (String.eqb attr "ord"); [| discriminate].
    bind_step Eo.
    match type of Eo with _ = Ok ?r => destruct r as [st num] end.
    simpl in H. bind_step Es. injection H as <-. simpl. split; [auto |].
    intros Hpt _. exact (proj2 (proj2 (ord_parse_spec _ _ _ _ _ Eo)) Hpt).
  - discriminate.
Qed.

Lemma parse_nested_metas_frame (c c' : FieldConf) (nms : list NestedMeta)
    (pt : PropertyType) :
  parse_nested_metas c nms pt = Ok c' ->
  (skip c = true -> skip c' = true) /\
  (pt <> PField -> number (ord c) = None -> number (ord c') = None).
Proof.
  revert c. induction nms as [| nm nms IH]; intros c H; simpl in H.
  - injection H as <-. auto.
  - destruct nm as [m | l]; simpl in H; [| discriminate].
    destruct (apply_attrs c m pt) as [c1 |] eqn:E; cbn [bind] in H; [| discriminate].
    destruct (apply_attrs_frame _ _ _ _ E) as [H1 H2].
    destruct (IH _ H) as [H3 H4]. split; auto.
Qed.

Lemma parse_attrs_frame (c c' : FieldConf) (attrs : list Attribute) (pt : PropertyType) :
  parse_attrs c attrs pt = Ok c' ->
  (skip c = true -> skip c' = true) /\
  (pt <> PField -> number (ord c) = None -> number (ord c') = None).
Proof.
  revert c. induction attrs as [| a attrs IH]; intros c H; simpl in H.
  - injection H as <-. auto.
  - destruct (attr_outer a); [| exact (IH _ H)].
    destruct (attr_meta a) as [[p | p nested | p lit] |]; try discriminate.
    + destruct (is_ident p ATTR_NAME); [discriminate | exact (IH _ H)].
    + destruct (is_ident p ATTR_NAME); [| exact (IH _ H)].
      destruct nested as [| nm nested]; [discriminate |].
      destruct (parse_nested_metas c (nm :: nested) pt) as [c1 |] eqn:E;
        cbn [bind] in H; [| discriminate].
      destruct (parse_nested_metas_frame _ _ _ _ E) as [H1 H2].
      destruct (IH _ H) as [H3 H4]. split; auto.
    + destruct (is_ident p ATTR_NAME); [discriminate | exact (IH _ H)].
Qed.

(** No attribute turns [skip] off again: once a crate, container or field
    configuration is skipped, every successful [parse_attrs] from it keeps
    it skipped. *)
Theorem parse_attrs_skip_sticky (c c' : FieldConf) (attrs : list Attribute)
    (pt : PropertyType) :
  skip c = true -> parse_attrs c attrs pt = Ok c' -> skip c' = true.
Proof. intros Hs H. exact (proj1 (parse_attrs_frame _ _ _ _ H) Hs). Qed.

Lemma parse_attrs_skip_sticky_witness :
  skip (set_skip FieldConf_default true) = true /\
  skip (match parse_attrs (set_skip FieldConf_default true) skip_sticky_attrs PField with
        | Ok c' => c' | Err _ => FieldConf_default end) = true.
Proof.
  split; [reflexivity |].
  apply (parse_attrs_skip_sticky (set_skip FieldConf_default true) _ skip_sticky_attrs
           PField); reflexivity.
Defined.

(** Outside the field scope no attribute list gives an ordinal: starting
    from a configuration without one, [parse_attrs] at the crate or
    container scope ends without one. *)
Theorem parse_attrs_no_ordinal_outside_fields (c c' : FieldConf)
    (attrs : list Attribute) (pt : PropertyType) :
  pt <> PField -> number (ord c) = None -> parse_attrs c attrs pt = Ok c' ->
  number (ord c') = None.
Proof. intros Hpt Hn H. exact (proj2 (parse_attrs_frame _ _ _ _ H) Hpt Hn). Qed.

Lemma parse_attrs_no_ordinal_outside_fields_witness :
  number (ord (match parse_attrs FieldConf_default
                       container_ord_attrs
                       PContainer with
               | Ok c' => c' | Err _ => set_ord FieldConf_default
                                          {| number := Some 0%N; sort_type := Ascending |}
               end)) = None.
Proof.
  apply (parse_attrs_no_ordinal_outside_fields FieldConf_default _ container_ord_attrs
           PContainer);
    [discriminate | reflexivity | reflexivity].
Defined.

(** [impl Parse for CrateConfDef]: the crate default never carries an
    ordinal. *)
Theorem crate_conf_has_no_ordinal (args : list NestedMeta) (c : FieldConf) :
  crate_conf_parse args = Ok c -> number (ord c) = None.
Proof.
  intro H. exact (proj2 (parse_nested_metas_frame _ _ _ _ H) ltac:(discriminate) eq_refl).
Qed.

Lemma crate_conf_has_no_ordinal_witness :
  number (ord (match crate_conf_parse [NMeta (MList ["ord"] [NMeta (MPath ["asc"])]);
                                       NMeta (MList ["set"] [NMeta (MPath ["private"])])]
               with
               | Ok c => c | Err _ => set_ord FieldConf_default
                                        {| number := Some 0%N; sort_type := Ascending |}
               end)) = None.
Proof.
  apply (crate_conf_has_no_ordinal
           [NMeta (MList ["ord"] [NMeta (MPath ["asc"])]);
            NMeta (MList ["set"] [NMeta (MPath ["private"])])]).
  reflexivity.
Defined.

Lemma parse_digits_decimal (ds : list nat) (acc : N) :
  Forall (fun d => d < 10) ds -> parse_digits (decimal ds) acc = Some (digits_value ds acc).
Proof.
  revert acc. induction ds as [| d ds IH]; intros acc Hf; [reflexivity |].
  inversion Hf as [| ? ? Hd Hf']; subst.
  cbn [decimal parse_digits digits_value]. unfold digit_char.
  rewrite nat_ascii_embedding by lia.
  replace (andb _ _) with true.
  - replace (acc * 10 + (N.of_nat (48 + d) - 48))%N with (acc * 10 + N.of_nat d)%N by lia.
    apply IH. exact Hf'.
  - symmetry. apply andb_true_intro. split; apply N.leb_le; lia.
Qed.

(** [str::parse::<usize>] on the digits of an ordinal word: a nonempty
    decimal numeral is read as its value when that value fits in 64 bits,
    and refused otherwise. *)
Theorem parse_usize_decimal (ds : list nat) :
  ds <> [] -> Forall (fun d => d < 10) ds ->
  parse_usize (decimal ds) =
    if (digits_value ds 0 <? 2 ^ 64)%N then Some (digits_value ds 0) else None.
Proof.
  intros Hne Hf. pose proof (parse_digits_decimal ds 0 Hf) as Hp.
  destruct ds as [| d ds]; [contradiction |].
  unfold parse_usize. cbn [decimal] in *. rewrite Hp. reflexivity.
Qed.

Lemma parse_usize_decimal_witness :
  parse_usize (decimal [1; 8; 4]) =
    if (digits_value [1%nat; 8%nat; 4%nat] 0 <? 2 ^ 64)%N
    then Some (digits_value [1; 8; 4] 0) else None.
Proof.
  apply parse_usize_decimal; [discriminate |].
  repeat (apply Forall_cons; [lia |]). apply Forall_nil.
Defined.

(** [OrdFieldConf::parse_from_path_params], reached from [apply_attrs]: at
    the field scope, [ord(_N)] with a decimal [N] below 2^64 sets the
    ordinal to [N] and keeps the sort direction. *)
Theorem ord_word_sets_ordinal (c : FieldConf) (ds : list nat) :
  ds <> [] -> Forall (fun d => d < 10) ds -> (digits_value ds 0 < 2 ^ 64)%N ->
  apply_attrs c (MList ["ord"] [NMeta (MPath [("_" ++ decimal ds)%string])]) PField =
    Ok (set_ord c {| number := Some (digits_value ds 0);
                     sort_type := sort_type (ord c) |}).
Proof.
  intros Hne Hf Hlt.
  assert (Hu : parse_usize (decimal ds) = Some (digits_value ds 0)).
  { pose proof (parse_digits_decimal ds 0 Hf) as Hp.
    destruct ds as [| d ds]; [contradiction |].
    unfold parse_usize. cbn [decimal] in *. rewrite Hp.
    apply N.ltb_lt in Hlt. rewrite Hlt. reflexivity. }
  cbn - [parse_usize decimal]. unfold ord_parse_from_path_params.
  cbn - [parse_usize decimal]. rewrite Hu. reflexivity.
Qed.

Lemma ord_word_sets_ordinal_witness :
  apply_attrs FieldConf_default (MList ["ord"] [NMeta (MPath [("_" ++ decimal [2; 0])%string])])
    PField =
    Ok (set_ord FieldConf_default {| number := Some (digits_value [2; 0] 0);
                                     sort_type := sort_type (ord FieldConf_default) |}).
Proof.
  apply ord_word_sets_ordinal; [discriminate | | reflexivity].
  repeat (apply Forall_cons; [lia |]). apply Forall_nil.
Defined.

(* ------------------------------------------------------------------------- *)
(** * Further properties of the expansion *)






(** [implement_traits] generates no [PartialEq]/[PartialOrd] exactly when
    no field carries an ordinal. *)
Theorem implement_traits_none_iff (fields : list FieldDef) :
  implement_traits fields = Done None <-> Forall (fun f => ord_number f = None) fields.
Proof.
  assert (Hf : filter has_number fields = [] <->
               Forall (fun f => ord_number f = None) fields).
  { induction fields as [| f fs IH]; cbn [filter]; [split; auto |].
    destruct (has_number f) eqn:E; unfold has_number in E;
      destruct (ord_number f) eqn:E'; try discriminate.
    - split; [discriminate | intro H; inversion H; congruence].
    - rewrite IH. split; [intro H; constructor; auto | intro H; inversion H; auto]. }
  rewrite <- Hf. unfold implement_traits.
  destruct (filter has_number fields) as [| f l]; [split; auto |].
  split; [| discriminate].
  destruct (has_same_serial_number _); discriminate.
Qed.

Lemma implement_traits_none_iff_witness :
  implement_traits [auto_witness_field; skipped_field] = Done None.
Proof.
  apply (implement_traits_none_iff [auto_witness_field; skipped_field]).
  repeat constructor.
Defined.

Lemma run_cmp_stmts_eq_iff (val_eq : Val -> Val -> bool)
    (partial_cmp : Val -> Val -> option comparison) (stmts : list (string * bool))
    (a b : Instance) :
  (forall x y, partial_cmp x y = Some Eq <-> val_eq x y = true) ->
  (forall x y, val_eq x y = val_eq y x) ->
  (run_cmp_stmts partial_cmp stmts a b = Some Eq <->
   forallb (fun f => val_eq (a f) (b f)) (map fst stmts) = true).
Proof.
  intros Hpe Hsym. induction stmts as [| [f asc] rest IH]; simpl; [split; auto |].
  destruct asc.
  - assert (Hc := Hpe (a f) (b f)).
    destruct (partial_cmp (a f) (b f)) as [[| |] |] eqn:E; rewrite ?E in Hc; simpl.
    all: first [ rewrite (proj1 Hc eq_refl); simpl; exact IH
               | split; [discriminate |
                         intro H; apply andb_prop in H; destruct H as [H _];
                         apply Hc in H; discriminate] ].
  - assert (Hc := Hpe (b f) (a f)). rewrite Hsym in Hc.
    destruct (partial_cmp (b f) (a f)) as [[| |] |] eqn:E; rewrite ?E in Hc; simpl.
    all: first [ rewrite (proj1 Hc eq_refl); simpl; exact IH
               | split; [discriminate |
                         intro H; apply andb_prop in H; destruct H as [H _];
                         apply Hc in H; discriminate] ].
Qed.

(** The generated [eq] and [partial_cmp] agree: for field types whose
    [partial_cmp] answers [Some Equal] exactly when [==] holds (and [==] is
    symmetric), [partial_cmp] answers [Some Equal] exactly when [eq]
    holds. *)
Theorem generated_eq_agrees_with_partial_cmp (val_eq : Val -> Val -> bool)
    (partial_cmp : Val -> Val -> option comparison) (fields : list FieldDef)
    (impls : TraitImpls) (a b : Instance) :
  (forall x y, partial_cmp x y = Some Eq <-> val_eq x y = true) ->
  (forall x y, val_eq x y = val_eq y x) ->
  implement_traits fields = Done (Some impls) ->
  (generated_partial_cmp partial_cmp impls a b = Some Eq <->
   generated_eq val_eq impls a b = true).
Proof.
  intros Hpe Hsym H.
  assert (Hm : eq_fields impls = map fst (cmp_stmts impls)).
  { unfold implement_traits in H.
    destruct (filter has_number fields) as [| f l]; [discriminate |].
    destruct (has_same_serial_number _); [discriminate |].
    injection H as <-. simpl. rewrite map_map. reflexivity. }
  unfold generated_eq, generated_partial_cmp. rewrite Hm.
  apply run_cmp_stmts_eq_iff; assumption.
Qed.

Lemma num_partial_cmp_eq_iff (x y : Val) :
  num_partial_cmp x y = Some Eq <-> num_eq x y = true.
Proof.
  destruct x, y; simpl; try (split; discriminate).
  rewrite Nat.eqb_eq, <- Nat.compare_eq_iff. split; [congruence | intros ->; reflexivity].
Qed.

Lemma num_eq_sym (x y : Val) : num_eq x y = num_eq y x.
Proof. destruct x, y; simpl; auto using Nat.eqb_sym. Qed.

Lemma generated_eq_agrees_with_partial_cmp_witness :
  implement_traits mixed_fields = Done (Some mixed_impls) /\
  (generated_partial_cmp num_partial_cmp mixed_impls inst_a inst_b = Some Eq <->
   generated_eq num_eq mixed_impls inst_a inst_b = true).
Proof.
  assert (H : implement_traits mixed_fields = Done (Some mixed_impls)) by reflexivity.
  split; [exact H |].
  exact (generated_eq_agrees_with_partial_cmp num_eq num_partial_cmp mixed_fields
           mixed_impls inst_a inst_b num_partial_cmp_eq_iff num_eq_sym H).
Defined.

(** The generated [partial_cmp] is antisymmetric whenever the field types'
    [partial_cmp] is: swapping the operands reverses the answer. *)
Theorem generated_partial_cmp_antisym (partial_cmp : Val -> Val -> option comparison)
    (impls : TraitImpls) (a b : Instance) :
  (forall x y, partial_cmp y x = option_map CompOpp (partial_cmp x y)) ->
  generated_partial_cmp partial_cmp impls b a =
    option_map CompOpp (generated_partial_cmp partial_cmp impls a b).
Proof.
  intro Hanti. unfold generated_partial_cmp.
  induction (cmp_stmts impls) as [| [f asc] rest IH]; [reflexivity |].
  destruct asc; simpl.
  - rewrite (Hanti (a f) (b f)).
    destruct (partial_cmp (a f) (b f)) as [[| |] |]; simpl; auto.
  - rewrite (Hanti (b f) (a f)).
    destruct (partial_cmp (b f) (a f)) as [[| |] |]; simpl; auto.
Qed.

Lemma num_partial_cmp_antisym (x y : Val) :
  num_partial_cmp y x = option_map CompOpp (num_partial_cmp x y).
Proof.
  destruct x, y; simpl; try reflexivity. now rewrite Nat.compare_antisym.
Qed.

Lemma generated_partial_cmp_antisym_witness :
  generated_partial_cmp num_partial_cmp mixed_impls inst_b inst_a =
    option_map CompOpp (generated_partial_cmp num_partial_cmp mixed_impls inst_a inst_b).
Proof.
  exact (generated_partial_cmp_antisym num_partial_cmp mixed_impls inst_a inst_b
           num_partial_cmp_antisym).
Defined.

(* ------------------------------------------------------------------------- *)
(** * Container parsing *)

(** [ContainerDef::parse] and the statics: only a struct with named fields
    resolves the container default, which advances the counter by one
    (modulo 2^64) whatever happens next; any other input is refused and
    leaves the statics as they were. *)
Theorem container_parse_statics (g : Globals) (di : DeriveInput) :
  crate_conf (fst (container_parse g di)) = crate_conf g /\
  init_default_done (fst (container_parse g di)) = init_default_done g /\
  call_count (fst (container_parse g di)) =
    match input_data di with
    | DNamed _ => ((call_count g + 1) mod 2 ^ 64)%N
    | _ => call_count g
    end /\
  match input_data di with
  | DNamed _ => True
  | _ => exists m, snd (container_parse g di) = Err m
  end.
Proof.
  unfold container_parse. destruct (input_data di); simpl; eauto 10.
Qed.

(** [FieldDef::parse_named_fields]: a struct without fields is refused. *)
Theorem container_parse_empty_struct (g : Globals) (di : DeriveInput) :
  input_data di = DNamed [] -> forall cd, snd (container_parse g di) <> Ok cd.
Proof.
  intros Hd cd H. unfold container_parse in H. rewrite Hd in H.
  destruct (get_default_conf g) as [c0 g0]. cbn [snd] in H.
  destruct (parse_attrs c0 (input_attrs di) PContainer); cbn [bind] in H;
    [| discriminate].
  discriminate.
Qed.

Lemma container_parse_empty_struct_witness :
  input_data {| input_attrs := []; input_ident := "E"; input_data := DNamed [] |} =
    DNamed [] /\
  snd (container_parse globals_init
         {| input_attrs := []; input_ident := "E"; input_data := DNamed [] |}) <>
    Ok {| container_name := "E"; container_fields := [] |}.
Proof.
  split; [reflexivity |].
  exact (container_parse_empty_struct globals_init
           {| input_attrs := []; input_ident := "E"; input_data := DNamed [] |}
           eq_refl {| container_name := "E"; container_fields := [] |}).
Defined.

Lemma parse_named_fields_loop_spec (fs : list SynField) (c : FieldConf)
    (fds : list FieldDef) :
  parse_named_fields_loop fs c = Ok fds ->
  Forall2 (fun sf fd => field_ident sf = Some (ident fd) /\ ty fd = field_ty sf /\
                        parse_attrs c (field_attrs sf) PField = Ok (conf fd)) fs fds.
Proof.
  revert fds. induction fs as [| sf fs IH]; intros fds H; simpl in H.
  - injection H as <-. constructor.
  - destruct (parse_attrs c (field_attrs sf) PField) as [cf |] eqn:E; cbn [bind] in H;
      [| discriminate].
    destruct (field_ident sf) as [i |] eqn:Ei; [| discriminate].
    destruct (parse_named_fields_loop fs c) as [r |] eqn:Er; cbn [bind] in H;
      [| discriminate].
    injection H as <-. constructor; [simpl; auto | exact (IH _ eq_refl)].
Qed.

(** [ContainerDef::parse] with [FieldDef::parse_named_fields]: a parsed
    container is a struct with at least one named field; its configuration
    comes from the crate default (or [FieldConf::default()]) and the
    container's attributes; and it has one [FieldDef] per field, in order,
    with the field's identifier and type, configured from the container
    configuration and the field's own attributes only. *)
Theorem container_parse_fields (g g' : Globals) (di : DeriveInput) (cd : ContainerDef) :
  container_parse g di = (g', Ok cd) ->
  exists named cconf,
    input_data di = DNamed named /\ named <> [] /\
    container_name cd = input_ident di /\
    parse_attrs (fst (get_default_conf g)) (input_attrs di) PContainer = Ok cconf /\
    Forall2 (fun sf fd => field_ident sf = Some (ident fd) /\ ty fd = field_ty sf /\
                          parse_attrs cconf (field_attrs sf) PField = Ok (conf fd))
      named (container_fields cd).
Proof.
  unfold container_parse. intro H.
  destruct (input_data di) as [named | | | |] eqn:Ed; try discriminate.
  destruct (get_default_conf g) as [c0 g0] eqn:Eg. injection H as _ H.
  destruct (parse_attrs c0 (input_attrs di) PContainer) as [cc |] eqn:Ec;
    cbn [bind] in H; [| discriminate].
  unfold parse_named_fields in H.
  destruct (parse_named_fields_loop named cc) as [fds |] eqn:Ef; cbn [bind] in H;
    [| discriminate].
  destruct fds as [| fd fds]; [discriminate |]. injection H as <-.
  exists named, cc. split; [reflexivity |]. split; [intros ->; discriminate Ef |].
  split; [reflexivity |]. split; [exact Ec |].
  exact (parse_named_fields_loop_spec _ _ _ Ef).
Qed.

Lemma container_parse_fields_witness :
  exists named cconf,
    input_data sample_input = DNamed named /\ named <> [] /\
    container_name (match snd (container_parse globals_init sample_input) with
                    | Ok cd => cd
                    | Err _ => {| container_name := ""; container_fields := [] |}
                    end) = input_ident sample_input /\
    parse_attrs (fst (get_default_conf globals_init)) (input_attrs sample_input)
      PContainer = Ok cconf /\
    Forall2 (fun sf fd => field_ident sf = Some (ident fd) /\ ty fd = field_ty sf /\
                          parse_attrs cconf (field_attrs sf) PField = Ok (conf fd))
      named (container_fields
               (match snd (container_parse globals_init sample_input) with
                | Ok cd => cd
                | Err _ => {| container_name := ""; container_fields := [] |}
                end)).
Proof.
  apply (container_parse_fields globals_init (fst (container_parse globals_init sample_input))).
  vm_compute. reflexivity.
Defined.

(* ------------------------------------------------------------------------- *)
(** * Further properties of the crate default, the parameters and the types *)

(** [CrateConfDef::set_default_conf] then [get_default_conf]: once the crate
    default has been set, every container resolved afterwards starts from
    it. *)
Theorem crate_default_round_trip (g g' : Globals) (c : FieldConf) :
  reachable g -> set_default_conf c g = Done g' ->
  forall n, fst (get_default_conf (Nat.iter n (fun h => snd (get_default_conf h)) g')) = c.
Proof.
  intros Hr H n. pose proof (reachable_once_flag g Hr) as Hf.
  unfold set_default_conf in H.
  destruct (crate_conf g) eqn:Ec; [discriminate |].
  destruct (0 <? call_count g)%N; [discriminate |].
  rewrite Hf in H. injection H as <-.
  assert (Hc : crate_conf (Nat.iter n (fun h => snd (get_default_conf h))
                 {| crate_conf := Some c; init_default_done := true;
                    call_count := call_count g |}) = Some c).
  { induction n as [| n IH]; [reflexivity |]. simpl. exact IH. }
  unfold get_default_conf at 1. rewrite Hc. reflexivity.
Qed.

Lemma crate_default_round_trip_witness :
  reachable globals_init /\
  set_default_conf (set_skip FieldConf_default true) globals_init =
    Done {| crate_conf := Some (set_skip FieldConf_default true);
            init_default_done := true; call_count := 0%N |} /\
  fst (get_default_conf
         (Nat.iter 3 (fun h => snd (get_default_conf h))
            {| crate_conf := Some (set_skip FieldConf_default true);
               init_default_done := true; call_count := 0%N |})) =
    set_skip FieldConf_default true.
Proof.
  split; [exact reach_init |]. split; [reflexivity |].
  exact (crate_default_round_trip globals_init _ (set_skip FieldConf_default true)
           reach_init eq_refl 3).
Defined.

Lemma path_eqb_refl (p : Path) : path_eqb p p = true.
Proof. induction p as [| a p IH]; simpl; [reflexivity |]. now rewrite String.eqb_refl. Qed.

Lemma collect_params_app (l1 l2 : list NestedMeta) (pp : list Path)
    (nv : list (Path * string)) :
  collect_params (l1 ++ l2) pp nv =
  bind (collect_params l1 pp nv) (fun r => collect_params l2 (fst r) (snd r)).
Proof.
  revert pp nv. induction l1 as [| x l1 IH]; intros pp nv; simpl; [reflexivity |].
  destruct x as [[p | p l | p [str | n | b]] | l]; try reflexivity.
  - destruct (existsb (path_eqb p) pp); [reflexivity | apply IH].
  - destruct (existsb (fun kv => path_eqb p (fst kv)) nv); [reflexivity | apply IH].
Qed.

Lemma collect_params_repeat_err (l1 l2 l3 : list NestedMeta) (p : Path)
    (x y : NestedMeta) (pp : list Path) (nv : list (Path * string)) :
  (x = NMeta (MPath p) /\ y = NMeta (MPath p)) \/
  (exists v w, x = NMeta (MNameValue p (LStr v)) /\ y = NMeta (MNameValue p (LStr w))) ->
  forall r, collect_params (l1 ++ x :: l2 ++ y :: l3) pp nv <> Ok r.
Proof.
  intros Hxy r H. rewrite collect_params_app in H.
  destruct (collect_params l1 pp nv) as [[pp1 nv1] |] eqn:E1; cbn [bind fst snd] in H;
    [| discriminate].
  destruct Hxy as [[-> ->] | (v & w & -> & ->)]; cbn [collect_params] in H.
  - destruct (existsb (path_eqb p) pp1); [discriminate |].
    rewrite collect_params_app in H.
    destruct (collect_params l2 (pp1 ++ [p]) nv1) as [[pp2 nv2] |] eqn:E2;
      cbn [bind fst snd] in H; [| discriminate].
    destruct (collect_params_spec _ _ _ _ _ E2) as (_ & H2 & _).
    assert (Hin : In p pp2) by (apply H2, in_or_app; right; now left).
    cbn [collect_params] in H.
    replace (existsb (path_eqb p) pp2) with true in H; [discriminate |].
    symmetry. apply existsb_exists. exists p. split; [exact Hin | apply path_eqb_refl].
  - destruct (existsb (fun kv => path_eqb p (fst kv)) nv1); [discriminate |].
    rewrite collect_params_app in H.
    destruct (collect_params l2 pp1 (nv1 ++ [(p, v)])) as [[pp2 nv2] |] eqn:E2;
      cbn [bind fst snd] in H; [| discriminate].
    assert (Hin : In (p, v) nv2).
    { apply (collect_params_nv_complete _ _ _ _ _ _ _ E2). right.
      apply in_or_app. right. now left. }
    cbn [collect_params] in H.
    replace (existsb (fun kv => path_eqb p (fst kv)) nv2) with true in H; [discriminate |].
    symmetry. apply existsb_exists. exists (p, v). split; [exact Hin | apply path_eqb_refl].
Qed.

(** [apply_attrs]: a group that repeats a word, or repeats a key of a
    name-value pair (whatever the values), is refused. *)
Theorem apply_attrs_repeated_param_rejected (c c' : FieldConf) (lpath : Path)
    (l1 l2 l3 : list NestedMeta) (p : Path) (x y : NestedMeta) (pt : PropertyType) :
  (x = NMeta (MPath p) /\ y = NMeta (MPath p)) \/
  (exists v w, x = NMeta (MNameValue p (LStr v)) /\ y = NMeta (MNameValue p (LStr w))) ->
  apply_attrs c (MList lpath (l1 ++ x :: l2 ++ y :: l3)) pt <> Ok c'.
Proof.
  intros Hxy H. simpl in H.
  destruct (collect_params (l1 ++ x :: l2 ++ y :: l3) [] []) as [r |] eqn:Hc;
    [| discriminate].
  exact (collect_params_repeat_err _ _ _ _ _ _ _ _ Hxy r Hc).
Qed.

Lemma apply_attrs_repeated_param_rejected_witness :
  apply_attrs FieldConf_default
    (MList ["get"] ([] ++ NMeta (MNameValue ["name"] (LStr "x")) ::
                    [NMeta (MPath ["public"])] ++
                    NMeta (MNameValue ["name"] (LStr "y")) :: [])) PField
    <> Ok FieldConf_default.
Proof.
  apply (apply_attrs_repeated_param_rejected FieldConf_default FieldConf_default ["get"]
           [] [NMeta (MPath ["public"])] [] ["name"]).
  right. exists "x", "y". split; reflexivity.
Defined.

(** [FieldType::from_type] only classifies single-segment paths: a field
    whose type is a qualified path (such as [std::string::String] or
    [std::vec::Vec<T>]) gets, in [Auto] mode, a getter returning a
    reference, and a setter taking one value convertible into the field
    type. *)
Theorem qualified_path_field_accessors (f : FieldDef) (segs : list PathSegment)
    (ms : list Method) (m : Method) :
  ty f = TPath segs -> length segs <> 1 -> get_typ (get (conf f)) = GAuto ->
  derive_property_for_field f = Some ms -> In m ms ->
  (forall g, m_sig m = SigGet g -> g = GRef) /\
  (forall st b, m_sig m = SigSet st b -> b = BInto (ty f)).
Proof.
  intros Ht Hl Hg Hd Hin.
  destruct (derive_methods_shape f ms m Hd Hin) as (ft & Hft & _ & Hget & Hset).
  assert (Hu : ft = Unhandled).
  { rewrite Ht in Hft.
    destruct segs as [| s [| s' segs]]; simpl in Hl; try lia; simpl in Hft; congruence. }
  subst ft. split.
  - intros g Hs. rewrite (Hget g Hs), Hg. reflexivity.
  - intros st b Hs. exact (proj2 (Hset st b Hs)).
Qed.

Lemma qualified_path_field_accessors_witness :
  m_sig (hd auto_witness_getter qualified_methods) = SigGet GRef /\
  ((forall g, m_sig (hd auto_witness_getter qualified_methods) = SigGet g -> g = GRef) /\
   (forall st b, m_sig (hd auto_witness_getter qualified_methods) = SigSet st b ->
      b = BInto (ty qualified_field))).
Proof.
  split; [vm_compute; reflexivity |].
  apply (qualified_path_field_accessors qualified_field
           [Seg "std" PANone; Seg "string" PANone; Seg "String" PANone] qualified_methods);
    [reflexivity | simpl; lia | reflexivity | vm_compute; reflexivity |].
  vm_compute. left. reflexivity.
Defined.
